(** * The glucose minimal model of chap18.ipynb

    A shallow embedding of the notebook's four functions
    ([make_system], [update_func], [run_simulation], [slope_func]) and of
    the library pieces they call.

    Numbers.  Python's [int] and [float] values are embedded in one type of
    exact rationals in canonical form ([Qc]); equality is Leibniz equality, a
    Python [int] is the rational with denominator one, and the rounding of
    binary floating point is not modelled: every arithmetic operation is the
    exact one.

    Effects.  A Python call either returns a value, raises an exception that
    nobody in the notebook catches, or does not come back; [outcome] has one
    constructor for each. *)

From Stdlib Require Import String QArith Qcanon Qround ZArith Bool List Lia Lqa.
Import ListNotations.

Open Scope Qc_scope.

(** ** Numbers *)

(** The numeric literal [n/d]. *)
Definition qc (n : Z) (d : positive) : Qc := Q2Qc (n # d).

(** Python's [x < y] and [x == y] on numbers. *)
Definition Qc_ltb (x y : Qc) : bool := negb (Qle_bool y x).
Definition Qc_eqb (x y : Qc) : bool := Qeq_bool x y.

(** ** Exceptions and outcomes *)

Inductive exn : Type :=
| KeyError (label : Qc)       (* a label that the index does not hold *)
| IndexError                  (* position 0 or -1 of an empty index *)
| OtherError (name : string). (* raised by a callee the notebook does not define *)

Inductive outcome (A : Type) : Type :=
| Ret (a : A)
| Raise (e : exn)
| Diverge.

Arguments Ret {A} a.
Arguments Raise {A} e.
Arguments Diverge {A}.

Definition bind {A B : Type} (m : outcome A) (k : A -> outcome B) : outcome B :=
  match m with
  | Ret a => k a
  | Raise e => Raise e
  | Diverge => Diverge
  end.

Notation "x <- m ;; k" := (bind m (fun x => k))
  (at level 61, m at next level, right associativity).

(** ** The data model *)

(** [Params(G0=..., k1=..., k2=..., k3=...)]. *)
Record Params : Type := mkParams { G0 : Qc; k1 : Qc; k2 : Qc; k3 : Qc }.

(** [State(G=..., X=...)]. *)
Record State : Type := mkState { G : Qc; X : Qc }.

(** [System(params, init=, Gb=, Ib=, I=, t_0=, t_end=, dt=)]: the fields of
    [params] together with the keyword fields.  [I] is the forcing signal, a
    callable that may raise. *)
Record System : Type := mkSystem {
  params : Params;
  init : State;
  Gb : Qc;
  Ib : Qc;
  I : Qc -> outcome Qc;
  t_0 : Qc;
  t_end : Qc;
  dt : Qc
}.

(** ** update_func and slope_func *)

Definition update_func (state : State) (t : Qc) (system : System) : outcome State :=
  let '(mkState g x) := state in
  let '(k1, k2, k3) := (k1 (params system), k2 (params system), k3 (params system)) in
  let '(I, Ib, Gb) := (I system, Ib system, Gb system) in
  let dt := dt system in
  let dGdt := - k1 * (g - Gb) - x * g in
  i <- I t ;;
  let dXdt := k3 * (i - Ib) - k2 * x in
  let g := g + dGdt * dt in
  let x := x + dXdt * dt in
  Ret (mkState g x).

Definition slope_func (state : State) (t : Qc) (system : System) : outcome (Qc * Qc) :=
  let '(mkState g x) := state in
  let '(k1, k2, k3) := (k1 (params system), k2 (params system), k3 (params system)) in
  let '(I, Ib, Gb) := (I system, Ib system, Gb system) in
  let dGdt := - k1 * (g - Gb) - x * g in
  i <- I t ;;
  let dXdt := k3 * (i - Ib) - k2 * x in
  Ret (dGdt, dXdt).

(** [state + c * slopes], componentwise in G and X. *)
Definition state_axpy (state : State) (c : Qc) (slopes : Qc * Qc) : State :=
  mkState (G state + c * fst slopes) (X state + c * snd slopes).

(** ** The data table and make_system *)

(** [data]: a pandas DataFrame read with [index_col='time'], one row per
    observation, with the columns [glucose] and [insulin]. *)
Record Row : Type := mkRow { time : Qc; glucose : Qc; insulin : Qc }.

Definition DataFrame : Type := list Row.

(** A column of the table, [data.glucose] or [data.insulin]: a pandas Series,
    the values of the column labelled by the index of the table. *)
Definition Series : Type := list (Qc * Qc).

Definition column (value : Row -> Qc) (data : DataFrame) : Series :=
  map (fun r => (time r, value r)) data.

(** The lookup of a label in the index of a Series: KeyError when no row
    carries it.  The tables considered have pairwise distinct labels (with
    a repeated label pandas returns a sub-series instead of a number; see
    [distinct_labels]). *)
Fixpoint series_loc (key : Qc) (s : Series) : outcome Qc :=
  match s with
  | [] => Raise (KeyError key)
  | (label, v) :: rest => if Qc_eqb label key then Ret v else series_loc key rest
  end.

(** [series[key]] for a number [key].  On a Series with a numeric index
    pandas looks [key] up among the LABELS of the index, not among the
    positions.  The index of an empty Series holds no numbers: there the key
    is taken as a position, and position 0 of nothing is an IndexError. *)
Definition series_getitem (key : Qc) (s : Series) : outcome Qc :=
  match s with
  | [] => Raise IndexError
  | _ :: _ => series_loc key s
  end.

Definition labels (data : DataFrame) : list Qc := map time data.

Definition distinct_labels (data : DataFrame) : Prop := NoDup (labels data).

(** Modelled from the spec: [get_first_label] and [get_last_label], functions
    of the modsim library that are not among the sources.  Section 6 has the
    time column give the bounds of the integration domain: the label of the
    first row and the label of the last row, [data.index[0]] and
    [data.index[-1]], which an empty index does not have. *)
Definition get_first_label (data : DataFrame) : outcome Qc :=
  match data with
  | [] => Raise IndexError
  | r :: _ => Ret (time r)
  end.

Definition get_last_label (data : DataFrame) : outcome Qc :=
  match data with
  | [] => Raise IndexError
  | r :: rest => Ret (time (last rest r))
  end.

Section Notebook.

(** [interpolate] is a function of the modsim library: from a Series it
    builds the callable that estimates the series at a time, or raises.
    The notebook's code is parametric in it. *)
Variable interpolate : Series -> outcome (Qc -> outcome Qc).

Definition make_system (params : Params) (data : DataFrame) : outcome System :=
  let '(mkParams G0 k1 k2 k3) := params in
  Gb <- series_getitem 0 (column glucose data) ;;
  Ib <- series_getitem 0 (column insulin data) ;;
  I <- interpolate (column insulin data) ;;
  t_0 <- get_first_label data ;;
  t_end <- get_last_label data ;;
  let init := mkState G0 0 in
  Ret (mkSystem params init Gb Ib I t_0 t_end (qc 2 1)).

End Notebook.

(** ** The TimeFrame and run_simulation *)

(** A TimeFrame: rows of state labelled by time, in the order in which the
    labels were first written. *)
Definition TimeFrame : Type := list (Qc * State).

Definition times (frame : TimeFrame) : list Qc := map fst frame.

(** [frame.row[t]] read: the row labelled [t], KeyError when there is none. *)
Fixpoint row_get (t : Qc) (frame : TimeFrame) : outcome State :=
  match frame with
  | [] => Raise (KeyError t)
  | (label, s) :: rest => if Qc_eqb label t then Ret s else row_get t rest
  end.

(** [frame.row[t] = s]: overwrites the row labelled [t] when there is one,
    appends a new last row otherwise. *)
Fixpoint row_set (t : Qc) (s : State) (frame : TimeFrame) : TimeFrame :=
  match frame with
  | [] => [(t, s)]
  | (label, s0) :: rest =>
      if Qc_eqb label t then (label, s) :: rest else (label, s0) :: row_set t s rest
  end.

(** Modelled from the spec: [linrange], a function of the modsim library that
    is not among the sources.  Section 4.2 has the driver "iterate over t in
    {t_0, t_0+dt, ...} while t < t_end"; [linrange_loop] is that iteration,
    and it comes back only when some [t] reaches [t_end].  [fuel] bounds the
    number of iterations; the result is [Diverge] when it is used up.
    For a positive step and an end time on the grid, t_end = t_0 + k*dt,
    the result is the k times t_0, ..., t_end - dt, which is also what a
    count of round((t_end - t_0) / dt) steps gives; what is stated about the
    number of rows of a trajectory is stated for that case. *)
Fixpoint linrange_loop (fuel : nat) (t t_end dt : Qc) : outcome (list Qc) :=
  match fuel with
  | O => Diverge
  | S fuel' =>
      if Qc_ltb t t_end
      then ts <- linrange_loop fuel' (t + dt) t_end dt ;; Ret (t :: ts)
      else Ret []
  end.

(** The number of iterations after which a loop with a positive step has
    reached [t_end]: one more than the ceiling of [(t_end - t_0) / dt]. *)
Definition linrange_fuel (t_0 t_end dt : Qc) : nat :=
  S (Z.to_nat (Qceiling (this ((t_end - t_0) / dt)))).

Definition linrange (t_0 t_end dt : Qc) : outcome (list Qc) :=
  linrange_loop (linrange_fuel t_0 t_end dt) t_0 t_end dt.

Section Driver.

Variable system : System.
Variable update_func : State -> Qc -> System -> outcome State.

(** The body of [for t in ts: frame.row[t+dt] = update_func(frame.row[t], t, system)]. *)
Fixpoint simulate (ts : list Qc) (frame : TimeFrame) : outcome TimeFrame :=
  match ts with
  | [] => Ret frame
  | t :: ts' =>
      s <- row_get t frame ;;
      s' <- update_func s t system ;;
      simulate ts' (row_set (t + dt system) s' frame)
  end.

Definition run_simulation : outcome TimeFrame :=
  let init := init system in
  let '(t_0, t_end, dt) := (t_0 system, t_end system, dt system) in
  let frame := [] in
  let frame := row_set t_0 init frame in
  ts <- linrange t_0 t_end dt ;;
  simulate ts frame.

(** The trajectory that the loop records after the state [s], without the
    frame: the update function is applied to the state it returned last. *)
Fixpoint unroll (ts : list Qc) (s : State) : outcome TimeFrame :=
  match ts with
  | [] => Ret []
  | t :: ts' =>
      s' <- update_func s t system ;;
      rest <- unroll ts' s' ;;
      Ret ((t + dt system, s') :: rest)
  end.

(** *** run_simulation on a store of frame objects

    The same function with the TimeFrame as what it is in Python, an object
    on the heap that [frame] refers to.  The store holds every frame object
    allocated so far; a reference is a position in it. *)
Definition Store : Type := list TimeFrame.

Definition new_TimeFrame (h : Store) : nat * Store := (length h, h ++ [[]]).

Fixpoint store_update (r : nat) (f : TimeFrame -> TimeFrame) (h : Store) : Store :=
  match h, r with
  | [], _ => []
  | frame :: h', O => f frame :: h'
  | frame :: h', S r' => frame :: store_update r' f h'
  end.

Definition deref (r : nat) (h : Store) : TimeFrame := nth r h [].

Fixpoint simulate_st (ts : list Qc) (frame : nat) (h : Store) : outcome Store :=
  match ts with
  | [] => Ret h
  | t :: ts' =>
      s <- row_get t (deref frame h) ;;
      s' <- update_func s t system ;;
      simulate_st ts' frame (store_update frame (row_set (t + dt system) s') h)
  end.

Definition run_simulation_st (h : Store) : outcome (nat * Store) :=
  let init := init system in
  let '(t_0, t_end, dt) := (t_0 system, t_end system, dt system) in
  let '(frame, h) := new_TimeFrame h in
  let h := store_update frame (row_set t_0 init) h in
  ts <- linrange t_0 t_end dt ;;
  h <- simulate_st ts frame h ;;
  Ret (frame, h).

End Driver.

(** ** run_ode_solver *)

(** [a * k1 + b * k2] on pairs of slopes. *)
Definition slopes_comb (a : Qc) (k1 : Qc * Qc) (b : Qc) (k2 : Qc * Qc) : Qc * Qc :=
  (a * fst k1 + b * fst k2, a * snd k1 + b * snd k2).

(** Modelled from the spec: the step of section 4.4, in the spec's words,
      k1 = f(state, t)
      k2 = f(state + (3/4)*dt*k1, t + (3/4)*dt)
      state_next = state + dt * (1/3 * k1 + 2/3 * k2)
    to be compared with [ralston_step], the step that the solver takes. *)
Definition spec_ralston_step (f : State -> Qc -> System -> outcome (Qc * Qc))
    (state : State) (t : Qc) (system : System) : outcome State :=
  let dt := dt system in
  k1 <- f state t system ;;
  k2 <- f (state_axpy state (qc 3 4 * dt) k1) (t + qc 3 4 * dt) system ;;
  Ret (state_axpy state dt (slopes_comb (qc 1 3) k1 (qc 2 3) k2)).

(** [project(y1, t1, slopes, dt)] of the solver: the state and the time
    reached from [(y1, t1)] along [slopes] in a time [dt]. *)
Definition project (y1 : State) (t1 : Qc) (slopes : Qc * Qc) (dt : Qc) : State * Qc :=
  (mkState (G y1 + fst slopes * dt) (X y1 + snd slopes * dt), t1 + dt).

(** [run_ode_solver] is modsim's [run_ralston], a function of the modsim
    library that is not among the sources; the notebook only calls it.
    Modelled from the spec: its loop, by section 4.4 the "same stepping
    discipline as 4.2, substituting this update rule", returning the
    trajectory and a diagnostics record (the step count).  The update rule
    itself is Ralston's method as the solver has it, which is not the rule
    written in section 4.4: the slopes at the start of the step, the slopes
    at the two-thirds point [project(y1, t1, slopes1, 2 * dt / 3)], and a
    step of [dt] along [(k1 + 3 * k2) / 4]. *)
Definition ralston_step (f : State -> Qc -> System -> outcome (Qc * Qc))
    (state : State) (t : Qc) (system : System) : outcome State :=
  let dt := dt system in
  slopes1 <- f state t system ;;
  let '(y_mid, t_mid) := project state t slopes1 (qc 2 1 * dt / qc 3 1) in
  slopes2 <- f y_mid t_mid system ;;
  let slopes := ((fst slopes1 + qc 3 1 * fst slopes2) / qc 4 1,
                 (snd slopes1 + qc 3 1 * snd slopes2) / qc 4 1) in
  let '(y2, t2) := project state t slopes dt in
  Ret y2.

Definition run_ode_solver (system : System)
    (slope_func : State -> Qc -> System -> outcome (Qc * Qc)) : outcome (TimeFrame * nat) :=
  frame <- run_simulation system (ralston_step slope_func) ;;
  Ret (frame, (length frame - 1)%nat).

(** ** Time grids *)

(** The [n] times [t], [t + dt], [t + dt + dt], ... *)
Fixpoint grid (t dt : Qc) (n : nat) : list Qc :=
  match n with
  | O => []
  | S n' => t :: grid (t + dt) dt n'
  end.

(** The number [n] as a rational. *)
Definition Qc_of_nat (n : nat) : Qc := Q2Qc (inject_Z (Z.of_nat n)).

(** The time reached from [t] after [n] steps of [dt]. *)
Fixpoint grid_point (t dt : Qc) (n : nat) : Qc :=
  match n with
  | O => t
  | S n' => grid_point (t + dt) dt n'
  end.

(** Each element is its predecessor plus [dt]. *)
Fixpoint steps_by (dt : Qc) (l : list Qc) : Prop :=
  match l with
  | a :: l' =>
      match l' with
      | b :: _ => b = a + dt /\ steps_by dt l'
      | [] => True
      end
  | [] => True
  end.

(** Each element is less than its successor. *)
Fixpoint increasing (l : list Qc) : Prop :=
  match l with
  | a :: l' =>
      match l' with
      | b :: _ => a < b /\ increasing l'
      | [] => True
      end
  | [] => True
  end.

(** ** Concrete inputs

    The values of the notebook ([params]), the first rows of its data file,
    and two instances of [interpolate] to run the functions on, both linear
    between the observations: [interpolate_linear] builds a signal that
    raises outside the observed range (scipy's interp1d as it is by
    default), [interpolate_extrapolate] one that continues beyond it, as
    the signal of the notebook does. *)

Definition params0 : Params :=
  mkParams (qc 290 1) (qc 3 100) (qc 2 100) (qc 1 100000).

Definition data0 : DataFrame :=
  [ mkRow 0 (qc 92 1) (qc 11 1);
    mkRow (qc 2 1) (qc 350 1) (qc 26 1);
    mkRow (qc 4 1) (qc 287 1) (qc 130 1);
    mkRow (qc 6 1) (qc 251 1) (qc 85 1) ].

Definition ValueError : exn := OtherError "ValueError".

Fixpoint interp1d (s : Series) (t : Qc) : outcome Qc :=
  match s with
  | [] => Raise ValueError
  | (t1, v1) :: rest =>
      match rest with
      | [] => Raise ValueError
      | (t2, v2) :: _ =>
          if Qc_ltb t t1 then Raise ValueError
          else if Qc_ltb t2 t then interp1d rest t
          else Ret (v1 + (v2 - v1) * ((t - t1) / (t2 - t1)))
      end
  end.

Definition interpolate_linear (s : Series) : outcome (Qc -> outcome Qc) :=
  match s with
  | _ :: _ :: _ => Ret (interp1d s)
  | _ => Raise ValueError
  end.

(** The signal that modsim's [interpolate] builds, a function of the modsim
    library that is not among the sources: it asks scipy's interp1d to
    extrapolate, so the first segment is continued to the left of the
    observations and the last segment to their right, and it refuses an
    index that is not strictly increasing.  (Modelled from the spec where
    the spec has it: section 3, estimates between the observations; section
    4.1, a forcing signal that "explicitly supports" extrapolation.) *)
Fixpoint interp1d_extrapolate (s : Series) (t : Qc) : outcome Qc :=
  match s with
  | [] => Raise ValueError
  | (t1, v1) :: rest =>
      match rest with
      | [] => Raise ValueError
      | (t2, v2) :: rest' =>
          match rest' with
          | _ :: _ =>
              if Qc_ltb t2 t then interp1d_extrapolate rest t
              else Ret (v1 + (v2 - v1) * ((t - t1) / (t2 - t1)))
          | [] => Ret (v1 + (v2 - v1) * ((t - t1) / (t2 - t1)))
          end
      end
  end.

Fixpoint strictly_increasing (l : list Qc) : bool :=
  match l with
  | a :: l' =>
      match l' with
      | b :: _ => Qc_ltb a b && strictly_increasing l'
      | [] => true
      end
  | [] => true
  end.

Definition interpolate_extrapolate (s : Series) : outcome (Qc -> outcome Qc) :=
  match s with
  | _ :: _ :: _ =>
      if strictly_increasing (map fst s) then Ret (interp1d_extrapolate s)
      else Raise ValueError
  | _ => Raise ValueError
  end.

(** The system that [make_system interpolate_linear params0 data0] returns. *)
Definition system0 : System :=
  mkSystem params0 (mkState (qc 290 1) 0) (qc 92 1) (qc 11 1)
           (interp1d (column insulin data0)) 0 (qc 6 1) (qc 2 1).

(** A system with k1 = k2 = k3 = 0 and a constant forcing signal. *)
Definition system_decoupled : System :=
  mkSystem (mkParams (qc 290 1) 0 0 0) (mkState (qc 290 1) 0) (qc 92 1) (qc 11 1)
           (fun _ => Ret (qc 11 1)) 0 (qc 6 1) (qc 2 1).

(** [system_decoupled] with an end time that is not on the grid of its
    step: t_0 = 0, t_end = 3, dt = 2. *)
Definition system_off_grid : System :=
  mkSystem (mkParams (qc 290 1) 0 0 0) (mkState (qc 290 1) 0) (qc 92 1) (qc 11 1)
           (fun _ => Ret (qc 11 1)) 0 (qc 3 1) (qc 2 1).

(** [system0] with the end time equal to the start time. *)
Definition system_single : System :=
  mkSystem params0 (mkState (qc 290 1) 0) (qc 92 1) (qc 11 1)
           (interp1d (column insulin data0)) 0 0 (qc 2 1).

(** [data0] without its first row: a table that starts after the time 0. *)
Definition data_late : DataFrame := tl data0.

(** What the calls return on [system0]. *)
Definition trajectory0 : TimeFrame :=
  match run_simulation system0 update_func with
  | Ret frame => frame
  | _ => []
  end.

Definition store0 : nat * Store :=
  match run_simulation_st system0 update_func [] with
  | Ret r => r
  | _ => (O, [])
  end.

Definition ode_result0 : TimeFrame * nat :=
  match run_ode_solver system0 slope_func with
  | Ret r => r
  | _ => ([], O)
  end.

(** [system0] with the signal that extrapolates, the system that
    [make_system interpolate_extrapolate params0 data0] returns. *)
Definition system_extrapolated : System :=
  mkSystem params0 (mkState (qc 290 1) 0) (qc 92 1) (qc 11 1)
           (interp1d_extrapolate (column insulin data0)) 0 (qc 6 1) (qc 2 1).

(** A table with strictly increasing labels that starts before the time 0:
    the row labelled 0 is its second row. *)
Definition data_shifted : DataFrame :=
  [ mkRow (qc (-2) 1) (qc 350 1) (qc 26 1);
    mkRow 0 (qc 92 1) (qc 11 1);
    mkRow (qc 4 1) (qc 287 1) (qc 130 1);
    mkRow (qc 6 1) (qc 251 1) (qc 85 1) ].

(** A system on which one step of the solver shows its coefficients:
    G = 256, X = 1, k1 = 1/8, k2 = 1/16, k3 = 0, Gb = 92, dt = 1/2. *)
Definition system_ralston : System :=
  mkSystem (mkParams (qc 256 1) (qc 1 8) (qc 1 16) 0) (mkState (qc 256 1) 1)
           (qc 92 1) (qc 11 1) (fun _ => Ret (qc 11 1)) 0 1 (qc 1 2).

Definition ode_result_ralston : TimeFrame * nat :=
  match run_ode_solver system_ralston slope_func with
  | Ret r => r
  | _ => ([], O)
  end.

(** ** Statements about trajectories *)

(** Every time of the frame lies between [t_0] and [t_end], and both
    endpoints are times of the frame. *)
Definition within_endpoints (system : System) (frame : TimeFrame) : Prop :=
  (forall t, In t (times frame) -> t_0 system <= t /\ t <= t_end system) /\
  In (t_0 system) (times frame) /\
  In (t_end system) (times frame).

(** ** Variations of a system and of an update function *)

(** The system with another forcing signal, [System(system, I=I')]. *)
Definition with_I (system : System) (I' : Qc -> outcome Qc) : System :=
  mkSystem (params system) (init system) (Gb system) (Ib system) I'
           (t_0 system) (t_end system) (dt system).

(** The update function that takes one step of length [dt] along the
    slopes that [f] returns: [state + dt * f(state, t, system)]. *)
Definition euler_step (f : State -> Qc -> System -> outcome (Qc * Qc))
    (state : State) (t : Qc) (system : System) : outcome State :=
  slopes <- f state t system ;;
  Ret (state_axpy state (dt system) slopes).

(** What [run_simulation] returns on [system_decoupled]. *)
Definition trajectory_decoupled : TimeFrame :=
  match run_simulation system_decoupled update_func with
  | Ret frame => frame
  | _ => []
  end.

(** [system0] with an end time beyond the observations: the forcing signal
    raises at the time 8, and 8 < t_end = 10. *)
Definition system_short_signal : System :=
  mkSystem params0 (mkState (qc 290 1) 0) (qc 92 1) (qc 11 1)
           (interp1d (column insulin data0)) 0 (qc 10 1) (qc 2 1).

(** A forcing signal that is that of [system0] before [t_end] and
    something else from [t_end] on. *)
Definition signal_cut (t : Qc) : outcome Qc :=
  if Qc_ltb t (t_end system0) then I system0 t else Ret 0.

(** * Properties *)

(** ** Numbers *)

Lemma Qc_eq_Qeq (x y : Qc) : x = y <-> (this x == this y)%Q.
Proof. split; [intros ->; reflexivity | apply Qc_is_canon]. Qed.

Lemma Qc_ltb_lt (x y : Qc) : Qc_ltb x y = true <-> x < y.
Proof.
  unfold Qc_ltb, Qclt. rewrite negb_true_iff.
  split; intro H.
  - apply Qnot_le_lt. intro Hle. apply Qle_bool_iff in Hle. congruence.
  - destruct (Qle_bool y x) eqn:E; [|reflexivity].
    apply Qle_bool_iff in E. exfalso. exact (Qlt_not_le _ _ H E).
Qed.

Lemma Qc_ltb_ge (x y : Qc) : Qc_ltb x y = false <-> y <= x.
Proof.
  unfold Qc_ltb, Qcle. rewrite negb_false_iff. apply Qle_bool_iff.
Qed.

Lemma Qc_eqb_eq (x y : Qc) : Qc_eqb x y = true <-> x = y.
Proof.
  unfold Qc_eqb. rewrite Qeq_bool_iff. symmetry. apply Qc_eq_Qeq.
Qed.

Lemma Qc_eqb_neq (x y : Qc) : Qc_eqb x y = false <-> x <> y.
Proof.
  rewrite <- Qc_eqb_eq. destruct (Qc_eqb x y); split; congruence.
Qed.

Lemma Qc_eqb_refl (x : Qc) : Qc_eqb x x = true.
Proof. now apply Qc_eqb_eq. Qed.

(** Linear arithmetic on [Qc]: the statement is moved to [Q], where [lra]
    decides it. *)
Ltac qc2q :=
  repeat match goal with
  | H : @eq Qc _ _ |- _ => apply Qc_eq_Qeq in H
  | H : ~ @eq Qc _ _ |- _ => rewrite Qc_eq_Qeq in H
  | |- @eq Qc _ _ => apply Qc_is_canon
  | |- ~ @eq Qc _ _ => rewrite Qc_eq_Qeq
  end;
  unfold Qclt, Qcle, Qcminus, Qcplus, Qcopp, Q2Qc in *;
  cbn [this] in *;
  repeat (setoid_rewrite Qred_correct);
  repeat match goal with
  | H : context [Qred _] |- _ => setoid_rewrite Qred_correct in H
  end.

Ltac qc_lra := qc2q; lra.

(** ** Outcomes *)

Lemma bind_Ret_inv {A B : Type} (m : outcome A) (k : A -> outcome B) (b : B) :
  bind m k = Ret b -> exists a, m = Ret a /\ k a = Ret b.
Proof. destruct m; simpl; intro H; try discriminate. now exists a. Qed.

(** Closed equations between numbers, inside [Ret], pairs and states. *)
Ltac qc_compute :=
  repeat (f_equal; try reflexivity); apply Qc_is_canon; vm_compute; reflexivity.

(** ** update_func and slope_func *)

(** [update_func] and [slope_func] as functions of what the forcing signal
    does at [t]. *)
Lemma update_func_unfold (g x t : Qc) (system : System) :
  update_func (mkState g x) t system =
  (i <- I system t ;;
   Ret (mkState
          (g + (- k1 (params system) * (g - Gb system) - x * g) * dt system)
          (x + (k3 (params system) * (i - Ib system) - k2 (params system) * x)
               * dt system))).
Proof. reflexivity. Qed.

Lemma slope_func_unfold (g x t : Qc) (system : System) :
  slope_func (mkState g x) t system =
  (i <- I system t ;;
   Ret (- k1 (params system) * (g - Gb system) - x * g,
        k3 (params system) * (i - Ib system) - k2 (params system) * x)).
Proof. reflexivity. Qed.

(** C1: where the forcing signal is defined at [t], with value [i],
    [update_func] returns exactly the state
    [(G + (-k1*(G - Gb) - X*G)*dt, X + (k3*(i - Ib) - k2*X)*dt)]: one
    forward-difference step of the minimal model. *)
Theorem update_func_forward_difference (g x t i : Qc) (system : System) :
  I system t = Ret i ->
  update_func (mkState g x) t system =
  Ret (mkState
         (g + (- k1 (params system) * (g - Gb system) - x * g) * dt system)
         (x + (k3 (params system) * (i - Ib system) - k2 (params system) * x)
              * dt system)).
Proof.
  intro Hi. rewrite update_func_unfold, Hi. reflexivity.
Qed.

Lemma update_func_forward_difference_witness :
  I system0 0 = Ret (qc 11 1 + (qc 26 1 - qc 11 1) * ((0 - 0) / (qc 2 1 - 0))) /\
  update_func (mkState (qc 290 1) 0) 0 system0 =
  Ret (mkState
         (qc 290 1 + (- k1 (params system0) * (qc 290 1 - Gb system0) - 0 * qc 290 1)
                     * dt system0)
         (0 + (k3 (params system0)
               * ((qc 11 1 + (qc 26 1 - qc 11 1) * ((0 - 0) / (qc 2 1 - 0))) - Ib system0)
               - k2 (params system0) * 0) * dt system0)).
Proof.
  split.
  - reflexivity.
  - apply (update_func_forward_difference (qc 290 1) 0 0 _ system0). reflexivity.
Defined.

(** The slope function, where the forcing signal is defined. *)
Lemma slope_func_value (g x t i : Qc) (system : System) :
  I system t = Ret i ->
  slope_func (mkState g x) t system =
  Ret (- k1 (params system) * (g - Gb system) - x * g,
       k3 (params system) * (i - Ib system) - k2 (params system) * x).
Proof.
  intro Hi. rewrite slope_func_unfold, Hi. reflexivity.
Qed.

(** C4: where the forcing signal is defined at [t], [slope_func] returns a
    pair of slopes and [update_func] returns the input state plus [dt] times
    that pair, componentwise in G and X. *)
Theorem update_func_is_state_plus_dt_slope
    (state : State) (t i : Qc) (system : System) :
  I system t = Ret i ->
  exists slopes : Qc * Qc,
    slope_func state t system = Ret slopes /\
    update_func state t system = Ret (state_axpy state (dt system) slopes).
Proof.
  intro Hi. destruct state as [g x].
  eexists. split.
  - apply slope_func_value, Hi.
  - rewrite update_func_unfold, Hi. cbn [bind].
    unfold state_axpy. cbn [G X fst snd].
    apply f_equal; apply f_equal2; ring.
Qed.

Lemma update_func_is_state_plus_dt_slope_witness :
  exists slopes : Qc * Qc,
    slope_func (mkState (qc 290 1) 0) (qc 2 1) system0 = Ret slopes /\
    update_func (mkState (qc 290 1) 0) (qc 2 1) system0 =
    Ret (state_axpy (mkState (qc 290 1) 0) (dt system0) slopes).
Proof.
  apply (update_func_is_state_plus_dt_slope _ (qc 2 1)
           (qc 11 1 + (qc 26 1 - qc 11 1) * ((qc 2 1 - 0) / (qc 2 1 - 0)))).
  reflexivity.
Defined.

(** C6, as stated, fails: the functions check no range.  With the signal
    that the notebook's [interpolate] builds, the time 8 lies beyond every
    observed time (0, 2, 4, 6), and [update_func] and [slope_func] return
    there, computed from the extrapolated value 40 of the signal. *)
Lemma update_func_beyond_the_observations :
  Forall (fun l => l < qc 8 1) (labels data0) /\
  make_system interpolate_extrapolate params0 data0 = Ret system_extrapolated /\
  I system_extrapolated (qc 8 1) = Ret (qc 85 1 + (qc 85 1 - qc 130 1)) /\
  (exists s', update_func (init system_extrapolated) (qc 8 1) system_extrapolated = Ret s' /\
              this (G s') = (6953 # 25)%Q /\ this (X s') = (29 # 50000)%Q) /\
  (exists k, slope_func (init system_extrapolated) (qc 8 1) system_extrapolated = Ret k) /\
  ~ (exists e, update_func (init system_extrapolated) (qc 8 1) system_extrapolated
               = Raise e).
Proof.
  split.
  { repeat constructor. }
  split; [reflexivity|].
  assert (Hi : I system_extrapolated (qc 8 1) = Ret (qc 85 1 + (qc 85 1 - qc 130 1))).
  { cbn. qc_compute. }
  split; [exact Hi|].
  destruct (init system_extrapolated) as [g x] eqn:Einit.
  rewrite update_func_unfold, slope_func_unfold, Hi. cbn [bind].
  split; [|split].
  - eexists. split; [reflexivity|]. injection Einit as <- <-.
    split; vm_compute; reflexivity.
  - eexists. reflexivity.
  - intros (e & He). discriminate.
Qed.

(** C6, amended: a call of [update_func] or [slope_func] at time [t] fails
    exactly when the forcing signal itself raises at [t], and then with the
    exception of the signal; it returns exactly when the signal returns.
    The functions make no check of the time of their own. *)
Theorem update_func_fails_iff_signal_fails
    (state : State) (t : Qc) (system : System) :
  (forall e, update_func state t system = Raise e <-> I system t = Raise e) /\
  (forall e, slope_func state t system = Raise e <-> I system t = Raise e) /\
  ((exists s', update_func state t system = Ret s') <->
   (exists i, I system t = Ret i)) /\
  ((exists k, slope_func state t system = Ret k) <->
   (exists i, I system t = Ret i)).
Proof.
  destruct state as [g x]. rewrite update_func_unfold, slope_func_unfold.
  destruct (I system t) as [i|e'|]; cbn [bind].
  - split; [|split; [|split]].
    + intro e. split; discriminate.
    + intro e. split; discriminate.
    + split; eauto.
    + split; eauto.
  - split; [|split; [|split]].
    + intro e. split; intro H; injection H as <-; reflexivity.
    + intro e. split; intro H; injection H as <-; reflexivity.
    + split; intros (a & Ha); discriminate.
    + split; intros (a & Ha); discriminate.
  - split; [|split; [|split]].
    + intro e. split; discriminate.
    + intro e. split; discriminate.
    + split; intros (a & Ha); discriminate.
    + split; intros (a & Ha); discriminate.
Qed.

(** C5, as stated, fails: with k1 = k2 = k3 = 0 the state (G = 100, X = 1/100)
    has the slopes (-1, 0), not (0, 0), and [update_func] moves G to 98. *)
Lemma decoupled_state_not_constant :
  k1 (params system_decoupled) = 0 /\
  k2 (params system_decoupled) = 0 /\
  k3 (params system_decoupled) = 0 /\
  slope_func (mkState (qc 100 1) (qc 1 100)) 0 system_decoupled
    = Ret (qc (-1) 1, 0) /\
  update_func (mkState (qc 100 1) (qc 1 100)) 0 system_decoupled
    = Ret (mkState (qc 98 1) (qc 1 100)) /\
  ~ (slope_func (mkState (qc 100 1) (qc 1 100)) 0 system_decoupled = Ret (0, 0) /\
     update_func (mkState (qc 100 1) (qc 1 100)) 0 system_decoupled
       = Ret (mkState (qc 100 1) (qc 1 100))).
Proof.
  assert (Hs : slope_func (mkState (qc 100 1) (qc 1 100)) 0 system_decoupled
               = Ret (qc (-1) 1, 0)).
  { cbn. qc_compute. }
  split; [reflexivity|]. split; [reflexivity|]. split; [reflexivity|].
  split; [exact Hs|]. split.
  - cbn. qc_compute.
  - intros [H _]. rewrite Hs in H. inversion H.
Qed.

(** C5, amended: with k1 = k2 = k3 = 0 and the forcing signal defined at
    [t], the slopes are [(-(X*G), 0)] and [update_func] returns
    [(G - X*G*dt, X)] whatever the value of the forcing signal: X is kept,
    and when X = 0 the slopes are zero and the state is returned unchanged. *)
Theorem decoupled_slope_and_update (g x t i : Qc) (system : System) :
  k1 (params system) = 0 ->
  k2 (params system) = 0 ->
  k3 (params system) = 0 ->
  I system t = Ret i ->
  slope_func (mkState g x) t system = Ret (- (x * g), 0) /\
  update_func (mkState g x) t system = Ret (mkState (g - x * g * dt system) x) /\
  (x = 0 ->
   slope_func (mkState g x) t system = Ret (0, 0) /\
   update_func (mkState g x) t system = Ret (mkState g x)).
Proof.
  intros H1 H2 H3 Hi.
  rewrite (slope_func_value g x t i system Hi).
  rewrite update_func_unfold, Hi. cbn [bind].
  rewrite H1, H2, H3.
  split; [|split; [|intros ->; split]].
  all: apply f_equal; apply f_equal2; ring.
Qed.

Lemma decoupled_slope_and_update_witness :
  slope_func (mkState (qc 100 1) (qc 1 100)) (qc 2 1) system_decoupled
    = Ret (- (qc 1 100 * qc 100 1), 0) /\
  update_func (mkState (qc 100 1) (qc 1 100)) (qc 2 1) system_decoupled
    = Ret (mkState (qc 100 1 - qc 1 100 * qc 100 1 * dt system_decoupled) (qc 1 100)) /\
  (qc 1 100 = 0 ->
   slope_func (mkState (qc 100 1) (qc 1 100)) (qc 2 1) system_decoupled = Ret (0, 0) /\
   update_func (mkState (qc 100 1) (qc 1 100)) (qc 2 1) system_decoupled
     = Ret (mkState (qc 100 1) (qc 1 100))).
Proof.
  apply (decoupled_slope_and_update (qc 100 1) (qc 1 100) (qc 2 1) (qc 11 1)
           system_decoupled); reflexivity.
Defined.

(** ** Time grids and linrange *)

Lemma grid_length (t dt : Qc) (n : nat) : length (grid t dt n) = n.
Proof. revert t. induction n; intro t; simpl; [reflexivity | now rewrite IHn]. Qed.

Lemma grid_point_S (t dt : Qc) (n : nat) :
  grid_point t dt (S n) = grid_point t dt n + dt.
Proof.
  revert t. induction n; intro t; [reflexivity|].
  change (grid_point (t + dt) dt (S n) = grid_point (t + dt) dt n + dt).
  apply IHn.
Qed.

Lemma grid_point_ge (t dt : Qc) (n : nat) : 0 <= dt -> t <= grid_point t dt n.
Proof.
  intro Hdt. revert t. induction n; intro t; simpl.
  - apply Qcle_refl.
  - apply Qcle_trans with (t + dt); [qc_lra | apply IHn].
Qed.

Lemma grid_point_le (t dt : Qc) (n : nat) : dt <= 0 -> grid_point t dt n <= t.
Proof.
  intro Hdt. revert t. induction n; intro t; simpl.
  - apply Qcle_refl.
  - apply Qcle_trans with (t + dt); [apply IHn | qc_lra].
Qed.

Lemma grid_point_mono (t dt : Qc) (n m : nat) :
  0 <= dt -> (n <= m)%nat -> grid_point t dt n <= grid_point t dt m.
Proof.
  intros Hdt Hnm. induction Hnm.
  - apply Qcle_refl.
  - rewrite grid_point_S. generalize dependent (grid_point t dt m).
    generalize (grid_point t dt n). intros a b Hab. qc_lra.
Qed.

Lemma grid_In (t dt : Qc) (n : nat) (x : Qc) :
  In x (grid t dt n) <-> exists i, (i < n)%nat /\ x = grid_point t dt i.
Proof.
  revert t. induction n; intro t; simpl.
  - split; [tauto | intros (i & Hi & _); lia].
  - rewrite IHn. split.
    + intros [<- | (i & Hi & ->)].
      * exists O. split; [lia | reflexivity].
      * exists (S i). split; [lia | reflexivity].
    + intros ([|i] & Hi & ->).
      * now left.
      * right. exists i. split; [lia | reflexivity].
Qed.

Lemma grid_steps_by (t dt : Qc) (n : nat) : steps_by dt (grid t dt n).
Proof.
  revert t. induction n; intro t; simpl; [exact Logic.I|].
  specialize (IHn (t + dt)). destruct n; simpl in *; [exact Logic.I|].
  split; [reflexivity | exact IHn].
Qed.

Lemma steps_by_increasing (dt : Qc) (l : list Qc) :
  0 < dt -> steps_by dt l -> increasing l.
Proof.
  intro Hdt. induction l as [|a l IH]; simpl; [trivial|].
  destruct l as [|b l]; [trivial|].
  intros [-> Hl]. split; [qc_lra | apply IH, Hl].
Qed.

(** The result of the loop is a grid that stays below [t_end], and the loop
    stopped because the next grid point had reached [t_end]. *)
Lemma linrange_loop_Ret (fuel : nat) (t t_end dt : Qc) (ts : list Qc) :
  linrange_loop fuel t t_end dt = Ret ts ->
  ts = grid t dt (length ts) /\
  (forall x, In x ts -> x < t_end) /\
  t_end <= grid_point t dt (length ts).
Proof.
  revert t ts. induction fuel as [|fuel IH]; intros t ts; simpl; [discriminate|].
  destruct (Qc_ltb t t_end) eqn:E.
  - intro H. apply bind_Ret_inv in H. destruct H as (ts' & Hts' & Hret).
    injection Hret as <-. apply IH in Hts'. destruct Hts' as (Hg & Hlt & Hend).
    simpl. repeat split.
    + now rewrite <- Hg.
    + intros x [<- | Hx]; [now apply Qc_ltb_lt | now apply Hlt].
    + exact Hend.
  - intro H. injection H as <-. simpl. repeat split.
    + intros x [].
    + now apply Qc_ltb_ge.
Qed.

(** The loop raises nothing. *)
Lemma linrange_loop_no_Raise (fuel : nat) (t t_end dt : Qc) (e : exn) :
  linrange_loop fuel t t_end dt <> Raise e.
Proof.
  revert t. induction fuel as [|fuel IH]; intro t; simpl; [discriminate|].
  destruct (Qc_ltb t t_end); [|discriminate].
  specialize (IH (t + dt)).
  destruct (linrange_loop fuel (t + dt) t_end dt); simpl; congruence.
Qed.

(** With a step that is not positive and a start below [t_end], no amount
    of fuel lets the loop come back: the iteration does not terminate. *)
Lemma linrange_loop_diverges (fuel : nat) (t t_end dt : Qc) :
  dt <= 0 -> t < t_end -> linrange_loop fuel t t_end dt = Diverge.
Proof.
  intro Hdt. revert t. induction fuel as [|fuel IH]; intros t Ht; simpl; [reflexivity|].
  apply Qc_ltb_lt in Ht as E. rewrite E.
  rewrite IH; [reflexivity | qc_lra].
Qed.

(** Fuel for [n] steps is enough once the [n]-th grid point has reached
    [t_end]. *)
Lemma linrange_loop_enough (n : nat) (t t_end dt : Qc) :
  t_end <= grid_point t dt n ->
  exists ts, linrange_loop (S n) t t_end dt = Ret ts.
Proof.
  revert t. induction n as [|n IH]; intros t Hn.
  - simpl in *. apply Qc_ltb_ge in Hn. rewrite Hn. now exists [].
  - change (linrange_loop (S (S n)) t t_end dt) with
      (if Qc_ltb t t_end
       then ts <- linrange_loop (S n) (t + dt) t_end dt ;; Ret (t :: ts)
       else Ret []).
    destruct (Qc_ltb t t_end); [|now exists []].
    destruct (IH (t + dt) Hn) as (ts & ->). now exists (t :: ts).
Qed.

Lemma Qc_of_nat_S (n : nat) : Qc_of_nat (S n) = Qc_of_nat n + 1.
Proof.
  unfold Qc_of_nat. qc2q.
  rewrite Nat2Z.inj_succ. unfold Z.succ. rewrite inject_Z_plus. reflexivity.
Qed.

Lemma grid_point_closed (t dt : Qc) (n : nat) :
  grid_point t dt n = t + Qc_of_nat n * dt.
Proof.
  induction n as [|n IH].
  - change (t = t + 0 * dt). ring.
  - rewrite grid_point_S, IH, Qc_of_nat_S. ring.
Qed.

Lemma Qc_of_nat_ceiling (x : Qc) : x <= Qc_of_nat (Z.to_nat (Qceiling x)).
Proof.
  unfold Qc_of_nat, Qcle, Q2Qc. cbn [this]. rewrite Qred_correct.
  apply Qle_trans with (inject_Z (Qceiling x)); [apply Qle_ceiling|].
  rewrite <- Zle_Qle. lia.
Qed.

(** With a positive step the fuel of [linrange] reaches [t_end]. *)
Lemma linrange_fuel_reaches (t_0 t_end dt : Qc) :
  0 < dt ->
  t_end <= grid_point t_0 dt (pred (linrange_fuel t_0 t_end dt)).
Proof.
  intro Hdt. unfold linrange_fuel. cbn [pred].
  rewrite grid_point_closed.
  set (x := (t_end - t_0) / dt).
  assert (Hx : x * dt = t_end - t_0).
  { unfold x. field. intro H0. rewrite H0 in Hdt. exact (Qclt_not_eq _ _ Hdt eq_refl). }
  pose proof (Qc_of_nat_ceiling x) as Hle.
  apply Qcmult_le_compat_r with (z := dt) in Hle; [|now apply Qclt_le_weak].
  rewrite Hx in Hle.
  generalize dependent (Qc_of_nat (Z.to_nat (Qceiling x)) * dt).
  intros y Hy. qc_lra.
Qed.

(** [linrange] returns for every positive step. *)
Lemma linrange_returns (t_0 t_end dt : Qc) :
  0 < dt -> exists ts, linrange t_0 t_end dt = Ret ts.
Proof.
  intro Hdt. unfold linrange.
  pose proof (linrange_fuel_reaches t_0 t_end dt Hdt) as H.
  unfold linrange_fuel in *. cbn [pred] in H.
  now apply linrange_loop_enough.
Qed.

(** [linrange] is empty when the start is not below [t_end], whatever the
    step. *)
Lemma linrange_empty (t_0 t_end dt : Qc) :
  t_end <= t_0 -> linrange t_0 t_end dt = Ret [].
Proof.
  intro H. unfold linrange, linrange_fuel. simpl.
  apply Qc_ltb_ge in H. now rewrite H.
Qed.

(** [linrange] does not come back when the step is not positive and the
    start is below [t_end]. *)
Lemma linrange_diverges (t_0 t_end dt : Qc) :
  dt <= 0 -> t_0 < t_end -> linrange t_0 t_end dt = Diverge.
Proof. intros. now apply linrange_loop_diverges. Qed.

(** What [linrange] returns: a grid from [t_0] that stays below [t_end],
    whose next point has reached [t_end]; it is empty unless the step is
    positive. *)
Lemma linrange_Ret (t_0 t_end dt : Qc) (ts : list Qc) :
  linrange t_0 t_end dt = Ret ts ->
  ts = grid t_0 dt (length ts) /\
  (forall x, In x ts -> x < t_end) /\
  t_end <= grid_point t_0 dt (length ts) /\
  (ts = [] \/ 0 < dt).
Proof.
  intro H. pose proof (linrange_loop_Ret _ _ _ _ _ H) as (Hg & Hlt & Hend).
  repeat split; try assumption.
  destruct (Qclt_le_dec 0 dt) as [Hpos | Hneg]; [now right | left].
  destruct (Qclt_le_dec t_0 t_end) as [Hlt0 | Hge0].
  - rewrite (linrange_diverges _ _ _ Hneg Hlt0) in H. discriminate.
  - rewrite (linrange_empty _ _ _ Hge0) in H. now injection H.
Qed.

(** When [t_end] is itself the [k]-th grid point, [linrange] has exactly
    [k] elements. *)
Lemma linrange_loop_on_grid (fuel k : nat) (t t_end dt : Qc) (ts : list Qc) :
  0 < dt ->
  t_end = grid_point t dt k ->
  linrange_loop fuel t t_end dt = Ret ts ->
  length ts = k.
Proof.
  intros Hdt. revert k t ts.
  induction fuel as [|fuel IH]; intros k t ts Hk; simpl; [discriminate|].
  destruct (Qc_ltb t t_end) eqn:E.
  - intro H. apply bind_Ret_inv in H. destruct H as (ts' & Hts' & Hret).
    injection Hret as <-. simpl.
    destruct k as [|k].
    + simpl in Hk. subst t_end. apply Qc_ltb_lt in E.
      exfalso. revert E. apply Qcle_not_lt, Qcle_refl.
    + f_equal. apply (IH k (t + dt) ts'); assumption.
  - intro H. injection H as <-. simpl.
    destruct k as [|k]; [reflexivity|].
    apply Qc_ltb_ge in E. simpl in Hk.
    pose proof (grid_point_ge (t + dt) dt k (Qclt_le_weak _ _ Hdt)) as Hge.
    rewrite <- Hk in Hge. exfalso. qc_lra.
Qed.

(** ** The TimeFrame *)

Lemma times_app (f1 f2 : TimeFrame) : times (f1 ++ f2) = times f1 ++ times f2.
Proof. apply map_app. Qed.

(** Reading the label that was appended last, when it is new. *)
Lemma row_get_app_new (t : Qc) (s : State) (frame : TimeFrame) :
  ~ In t (times frame) -> row_get t (frame ++ [(t, s)]) = Ret s.
Proof.
  induction frame as [|[l s0] frame IH]; simpl; intro Hnin.
  - now rewrite Qc_eqb_refl.
  - destruct (Qc_eqb l t) eqn:E.
    + apply Qc_eqb_eq in E. exfalso. apply Hnin. now left.
    + apply IH. intro Hin. apply Hnin. now right.
Qed.

(** Writing a new label appends a row. *)
Lemma row_set_app_new (t : Qc) (s : State) (frame : TimeFrame) :
  ~ In t (times frame) -> row_set t s frame = frame ++ [(t, s)].
Proof.
  induction frame as [|[l s0] frame IH]; simpl; intro Hnin.
  - reflexivity.
  - destruct (Qc_eqb l t) eqn:E.
    + apply Qc_eqb_eq in E. exfalso. apply Hnin. now left.
    + f_equal. apply IH. intro Hin. apply Hnin. now right.
Qed.

(** ** run_simulation *)

Section DriverProperties.

Variable system : System.
Variable update_func : State -> Qc -> System -> outcome State.

(** The loop invariant: the frame ends with the row of the current time,
    and every earlier label is below it.  On a grid with a positive step
    the loop then reads back the state it wrote last and appends one row
    per time. *)
Lemma simulate_grid (n : nat) (t : Qc) (s : State) (pre : TimeFrame) :
  0 < dt system ->
  (forall l, In l (times pre) -> l < t) ->
  simulate system update_func (grid t (dt system) n) (pre ++ [(t, s)]) =
  (rest <- unroll system update_func (grid t (dt system) n) s ;;
   Ret ((pre ++ [(t, s)]) ++ rest)).
Proof.
  intro Hdt. revert t s pre.
  induction n as [|n IH]; intros t s pre Hpre; simpl.
  - now rewrite app_nil_r.
  - rewrite row_get_app_new.
    2:{ intro Hin. apply Hpre in Hin. revert Hin. apply Qcle_not_lt, Qcle_refl. }
    simpl. destruct (update_func s t system) as [s'| |]; simpl; try reflexivity.
    rewrite row_set_app_new.
    2:{ rewrite times_app, in_app_iff. simpl. intros [Hin | [Heq | []]].
        - apply Hpre in Hin. qc_lra.
        - qc_lra. }
    rewrite IH.
    + destruct (unroll system update_func (grid (t + dt system) (dt system) n) s');
        simpl; try reflexivity.
      now rewrite <- app_assoc.
    + intros l. rewrite times_app, in_app_iff. simpl. intros [Hin | [<- | []]].
      * apply Hpre in Hin. qc_lra.
      * qc_lra.
Qed.

(** The driver computes the times with [linrange] and then records, after
    the initial state at [t_0], what [unroll] produces. *)
Lemma run_simulation_unroll :
  run_simulation system update_func =
  (ts <- linrange (t_0 system) (t_end system) (dt system) ;;
   rest <- unroll system update_func ts (init system) ;;
   Ret ((t_0 system, init system) :: rest)).
Proof.
  unfold run_simulation. cbn [row_set].
  destruct (linrange (t_0 system) (t_end system) (dt system)) as [ts| |] eqn:E;
    simpl; try reflexivity.
  apply linrange_Ret in E. destruct E as (Hg & _ & _ & [-> | Hdt]).
  - reflexivity.
  - rewrite Hg. apply (simulate_grid _ _ _ [] Hdt). intros l [].
Qed.

(** The times that [unroll] records. *)
Lemma unroll_times (ts : list Qc) (s : State) (rest : TimeFrame) :
  unroll system update_func ts s = Ret rest ->
  times rest = map (fun t => t + dt system) ts.
Proof.
  revert s rest. induction ts as [|t ts IH]; intros s rest; simpl.
  - intro H. now injection H as <-.
  - intro H. apply bind_Ret_inv in H. destruct H as (s' & _ & H).
    apply bind_Ret_inv in H. destruct H as (rest' & Hrest' & H).
    injection H as <-. simpl. f_equal. now apply IH with s'.
Qed.

(** [unroll] returns when the update function returns at every state and
    every time. *)
Lemma unroll_returns (ts : list Qc) (s : State) :
  (forall s t, exists s', update_func s t system = Ret s') ->
  exists rest, unroll system update_func ts s = Ret rest.
Proof.
  intro Htot. revert s. induction ts as [|t ts IH]; intro s; simpl.
  - now exists [].
  - destruct (Htot s t) as (s' & ->). simpl.
    destruct (IH s') as (rest & ->). simpl. eauto.
Qed.

(** The driver returns a trajectory when the step is positive and the
    update function returns at every state and every time. *)
Lemma run_simulation_returns :
  0 < dt system ->
  (forall s t, exists s', update_func s t system = Ret s') ->
  exists frame, run_simulation system update_func = Ret frame.
Proof.
  intros Hdt Htot. rewrite run_simulation_unroll.
  destruct (linrange_returns (t_0 system) (t_end system) (dt system) Hdt) as (ts & ->).
  simpl. destruct (unroll_returns ts (init system) Htot) as (rest & ->).
  simpl. eauto.
Qed.

(** The shape of a returned trajectory: the initial state at [t_0]
    followed by one row per time of a grid that stays below [t_end] and
    whose next point has reached it. *)
Lemma run_simulation_Ret (frame : TimeFrame) :
  run_simulation system update_func = Ret frame ->
  exists (n : nat) (rest : TimeFrame),
    frame = (t_0 system, init system) :: rest /\
    unroll system update_func (grid (t_0 system) (dt system) n) (init system)
      = Ret rest /\
    times frame = grid (t_0 system) (dt system) (S n) /\
    (forall x, In x (grid (t_0 system) (dt system) n) -> x < t_end system) /\
    t_end system <= grid_point (t_0 system) (dt system) n /\
    (n = O \/ 0 < dt system).
Proof.
  rewrite run_simulation_unroll. intro H.
  apply bind_Ret_inv in H. destruct H as (ts & Hts & H).
  apply bind_Ret_inv in H. destruct H as (rest & Hrest & H).
  injection H as <-.
  pose proof (linrange_Ret _ _ _ _ Hts) as (Hg & Hlt & Hend & Hpos).
  exists (length ts), rest. rewrite <- Hg.
  repeat split; try assumption.
  - simpl. f_equal. rewrite (unroll_times _ _ _ Hrest).
    rewrite Hg at 1. clear.
    generalize (t_0 system). induction (length ts) as [|n IH]; intro t; simpl.
    + reflexivity.
    + now rewrite IH.
  - destruct Hpos as [-> | Hdt]; [now left | now right].
Qed.

End DriverProperties.

(** ** Runs on the concrete inputs *)

Example trajectory0_times :
  run_simulation system0 update_func = Ret trajectory0 /\
  map this (times trajectory0) = [0; 2 # 1; 4 # 1; 6 # 1]%Q.
Proof. split; vm_compute; reflexivity. Qed.

Example trajectory0_first_step :
  map (fun r => (this (G (snd r)), this (X (snd r)))) (firstn 2 trajectory0)
  = [(290 # 1, 0); (6953 # 25, 0)]%Q.
Proof. vm_compute. reflexivity. Qed.

Example off_grid_times :
  match run_simulation system_off_grid update_func with
  | Ret frame => map this (times frame) = [0; 2 # 1; 4 # 1]%Q
  | _ => False
  end.
Proof. vm_compute. reflexivity. Qed.

Example ode_result0_times :
  run_ode_solver system0 slope_func = Ret ode_result0 /\
  map this (times (fst ode_result0)) = [0; 2 # 1; 4 # 1; 6 # 1]%Q /\
  snd ode_result0 = 3%nat.
Proof. repeat split; vm_compute; reflexivity. Qed.

(** ** The times of a trajectory *)

Lemma grid_last (t dt d : Qc) (n : nat) :
  last (grid t dt (S n)) d = grid_point t dt n.
Proof.
  revert t. induction n as [|n IH]; intro t; [reflexivity|].
  change (grid t dt (S (S n))) with (t :: grid (t + dt) dt (S n)).
  change (grid_point t dt (S n)) with (grid_point (t + dt) dt n).
  rewrite <- IH. reflexivity.
Qed.

(** The number of points of a grid below [t_end] is determined when
    [t_end] is a point of the grid. *)
Lemma grid_index_unique (t dt t_end : Qc) (n k : nat) :
  0 < dt ->
  (forall x, In x (grid t dt n) -> x < t_end) ->
  t_end <= grid_point t dt n ->
  t_end = grid_point t dt k ->
  n = k.
Proof.
  intros Hdt Hlt Hend Hk.
  pose proof (Qclt_le_weak _ _ Hdt) as Hdt'.
  destruct (Nat.lt_trichotomy n k) as [Hnk | [Heq | Hkn]]; [|exact Heq|].
  - exfalso.
    pose proof (grid_point_mono t dt (S n) k Hdt' Hnk) as Hm.
    rewrite grid_point_S, <- Hk in Hm.
    generalize dependent (grid_point t dt n). intros a Ha Hm. qc_lra.
  - exfalso.
    assert (Hin : In t_end (grid t dt n)).
    { apply grid_In. exists k. now split. }
    apply Hlt in Hin. revert Hin. apply Qcle_not_lt, Qcle_refl.
Qed.

(** C3: a trajectory returned by [run_simulation] has the initial state at
    [t_0] as its first entry, consecutive times that differ by exactly
    [dt], and strictly increasing times. *)
Theorem trajectory_first_entry_and_steps
    (system : System) (update_func : State -> Qc -> System -> outcome State)
    (frame : TimeFrame) :
  run_simulation system update_func = Ret frame ->
  hd_error frame = Some (t_0 system, init system) /\
  steps_by (dt system) (times frame) /\
  increasing (times frame).
Proof.
  intro H. apply run_simulation_Ret in H.
  destruct H as (n & rest & -> & _ & Htimes & _ & _ & Hpos).
  split; [reflexivity|]. rewrite Htimes. split.
  - apply grid_steps_by.
  - destruct Hpos as [-> | Hdt]; [exact Logic.I|].
    apply steps_by_increasing with (dt system); [exact Hdt | apply grid_steps_by].
Qed.

Lemma trajectory_first_entry_and_steps_witness :
  run_simulation system0 update_func = Ret trajectory0 /\
  hd_error trajectory0 = Some (t_0 system0, init system0) /\
  steps_by (dt system0) (times trajectory0) /\
  increasing (times trajectory0).
Proof.
  split.
  - vm_compute. reflexivity.
  - apply (trajectory_first_entry_and_steps system0 update_func trajectory0).
    vm_compute. reflexivity.
Defined.

(** C2, as stated, fails: with t_0 = 0, t_end = 3 and dt = 2 the driver
    returns a trajectory at the times 0, 2, 4; the time 4 is greater than
    [t_end], and [t_end] itself is not a time of the trajectory. *)
Lemma trajectory_overshoots_t_end :
  exists frame,
    run_simulation system_off_grid update_func = Ret frame /\
    map this (times frame) = [0; 2 # 1; 4 # 1]%Q /\
    (exists t, In t (times frame) /\ t_end system_off_grid < t) /\
    ~ within_endpoints system_off_grid frame.
Proof.
  destruct (run_simulation system_off_grid update_func) as [frame| |] eqn:E;
    try (vm_compute in E; discriminate).
  exists frame. split; [reflexivity|].
  assert (Ht : map this (times frame) = [0; 2 # 1; 4 # 1]%Q).
  { vm_compute in E. injection E as <-. reflexivity. }
  assert (Hin : In (qc 4 1) (times frame)).
  { vm_compute in E. injection E as <-. simpl.
    right. right. left. apply Qc_is_canon. reflexivity. }
  split; [exact Ht|]. split.
  - exists (qc 4 1). split; [exact Hin | reflexivity].
  - intros (Hall & _ & _). apply Hall in Hin. destruct Hin as [_ Hle].
    vm_compute in Hle. now apply Hle.
Qed.

(** C2, amended: when the step is positive and [t_end] is a whole number
    k of steps after [t_0], the driver returns a trajectory whenever the
    update function returns, and the times of a returned trajectory are
    exactly the grid points t_0, t_0 + dt, ..., t_0 + k*dt = t_end: the
    last time is [t_end], every time lies between the two endpoints and
    both endpoints are times of the trajectory. *)
Theorem trajectory_times_on_grid
    (system : System) (update_func : State -> Qc -> System -> outcome State)
    (k : nat) :
  0 < dt system ->
  t_end system = grid_point (t_0 system) (dt system) k ->
  ((forall s t, exists s', update_func s t system = Ret s') ->
   exists frame, run_simulation system update_func = Ret frame) /\
  (forall frame,
     run_simulation system update_func = Ret frame ->
     times frame = grid (t_0 system) (dt system) (S k) /\
     hd_error (times frame) = Some (t_0 system) /\
     last (times frame) (t_0 system) = t_end system /\
     within_endpoints system frame).
Proof.
  intros Hdt Hk. split; [now apply run_simulation_returns|].
  intros frame H. apply run_simulation_Ret in H.
  destruct H as (n & rest & _ & _ & Htimes & Hlt & Hend & _).
  pose proof (Qclt_le_weak _ _ Hdt) as Hdt'.
  assert (n = k) by (eapply grid_index_unique; eassumption). subst n.
  rewrite Htimes, grid_last.
  split; [reflexivity|]. split; [reflexivity|]. split; [now symmetry|].
  unfold within_endpoints. rewrite Htimes. split; [|split].
  - intros t Hin. apply grid_In in Hin. destruct Hin as (i & Hi & ->).
    split; [now apply grid_point_ge|].
    rewrite Hk. apply grid_point_mono; [exact Hdt' | lia].
  - now left.
  - apply grid_In. exists k. split; [lia | exact Hk].
Qed.

Lemma trajectory_times_on_grid_witness :
  0 < dt system0 /\
  t_end system0 = grid_point (t_0 system0) (dt system0) 3 /\
  run_simulation system0 update_func = Ret trajectory0 /\
  times trajectory0 = grid (t_0 system0) (dt system0) 4 /\
  hd_error (times trajectory0) = Some (t_0 system0) /\
  last (times trajectory0) (t_0 system0) = t_end system0 /\
  within_endpoints system0 trajectory0.
Proof.
  assert (Hdt : 0 < dt system0) by reflexivity.
  assert (Hk : t_end system0 = grid_point (t_0 system0) (dt system0) 3)
    by (apply Qc_is_canon; reflexivity).
  assert (Hrun : run_simulation system0 update_func = Ret trajectory0)
    by (vm_compute; reflexivity).
  split; [exact Hdt|]. split; [exact Hk|]. split; [exact Hrun|].
  exact (proj2 (trajectory_times_on_grid system0 update_func 3 Hdt Hk) trajectory0 Hrun).
Defined.

(** C7, as stated, fails: with t_end = t_0 the driver raises nothing; it
    returns the trajectory that holds the initial state. *)
Lemma no_error_when_t_end_is_t_0 :
  t_end system_single <= t_0 system_single /\
  run_simulation system_single update_func
    = Ret [(t_0 system_single, init system_single)] /\
  ~ (exists e, run_simulation system_single update_func = Raise e).
Proof.
  assert (H : run_simulation system_single update_func
              = Ret [(t_0 system_single, init system_single)]) by reflexivity.
  split; [vm_compute; discriminate|]. split; [exact H|].
  intros (e & He). rewrite H in He. discriminate.
Qed.

(** C7, amended: for a configuration whose end time is its start time,
    with a positive step, the driver raises nothing, calls the update
    function not once and returns the trajectory that holds the initial
    state at [t_0] and nothing else. *)
Theorem run_simulation_single_row
    (system : System) (update_func : State -> Qc -> System -> outcome State) :
  0 < dt system ->
  t_end system = t_0 system ->
  run_simulation system update_func = Ret [(t_0 system, init system)].
Proof.
  intros _ H. unfold run_simulation. rewrite linrange_empty; [reflexivity|].
  rewrite H. apply Qcle_refl.
Qed.

Lemma run_simulation_single_row_witness :
  0 < dt system_single /\
  t_end system_single = t_0 system_single /\
  run_simulation system_single update_func
    = Ret [(t_0 system_single, init system_single)].
Proof.
  assert (Hdt : 0 < dt system_single) by reflexivity.
  assert (H : t_end system_single = t_0 system_single) by reflexivity.
  split; [exact Hdt|]. split; [exact H|].
  exact (run_simulation_single_row system_single update_func Hdt H).
Defined.

(** ** The steps of a trajectory *)

(** Two rows that follow each other in what [unroll] records after
    [(t, s)]: the second is the update of the first, one step later. *)
Lemma unroll_adjacent
    (system : System) (update_func : State -> Qc -> System -> outcome State)
    (ts : list Qc) (t : Qc) (s : State) (rest pre post : TimeFrame)
    (a b : Qc) (sa sb : State) :
  unroll system update_func ts s = Ret rest ->
  ts = grid t (dt system) (length ts) ->
  (t, s) :: rest = pre ++ (a, sa) :: (b, sb) :: post ->
  b = a + dt system /\ update_func sa a system = Ret sb.
Proof.
  revert t s rest pre. induction ts as [|t1 ts IH]; intros t s rest pre; simpl.
  - intros H _ Hsplit. injection H as <-.
    destruct pre as [|p [|p' pre]]; discriminate.
  - intros H Hg Hsplit. injection Hg as -> Hg.
    apply bind_Ret_inv in H. destruct H as (s' & Hs' & H).
    apply bind_Ret_inv in H. destruct H as (rest' & Hrest' & H).
    injection H as <-.
    destruct pre as [|p pre].
    + simpl in Hsplit. injection Hsplit as <- <- <- <- _. now split.
    + simpl in Hsplit. injection Hsplit as _ Hsplit.
      exact (IH (t + dt system) s' rest' pre Hrest' Hg Hsplit).
Qed.

(** Every row of a trajectory returned by [run_simulation] but the first is
    the update of the row before it, one step later. *)
Lemma run_simulation_adjacent
    (system : System) (update_func : State -> Qc -> System -> outcome State)
    (frame pre post : TimeFrame) (a b : Qc) (sa sb : State) :
  run_simulation system update_func = Ret frame ->
  frame = pre ++ (a, sa) :: (b, sb) :: post ->
  b = a + dt system /\ update_func sa a system = Ret sb.
Proof.
  rewrite run_simulation_unroll. intros H Hsplit.
  apply bind_Ret_inv in H. destruct H as (ts & Hts & H).
  apply bind_Ret_inv in H. destruct H as (rest & Hrest & H).
  injection H as <-.
  apply linrange_Ret in Hts. destruct Hts as (Hg & _).
  exact (unroll_adjacent system update_func ts (t_0 system) (init system)
           rest pre post a b sa sb Hrest Hg Hsplit).
Qed.

(** The coefficients of the solver's step. *)
Lemma two_thirds_of (d : Qc) : qc 2 1 * d / qc 3 1 = qc 2 3 * d.
Proof.
  apply Qc_is_canon. unfold Qcdiv, Qcmult, Qcinv, qc, Q2Qc. cbn [this].
  repeat (setoid_rewrite Qred_correct).
  change (/ (3 # 1))%Q with (1 # 3)%Q. lra.
Qed.

Lemma quarter_of_sum (a b : Qc) :
  (a + qc 3 1 * b) / qc 4 1 = qc 1 4 * a + qc 3 4 * b.
Proof.
  apply Qc_is_canon. unfold Qcdiv, Qcmult, Qcplus, Qcinv, qc, Q2Qc. cbn [this].
  repeat (setoid_rewrite Qred_correct).
  change (/ (4 # 1))%Q with (1 # 4)%Q. lra.
Qed.

(** C8, as stated, fails: from G = 256, X = 1 with k1 = 1/8, Gb = 92 and
    dt = 1/2 the solver records G = 121277/768 after one step, where the
    step of the claim (second slope at t + (3/4)*dt, weights 1/3 and 2/3)
    gives G = 323221/2048. *)
Lemma run_ode_solver_is_not_the_stated_step :
  exists (frame : TimeFrame) (details : nat) (s1 s_stated : State),
    run_ode_solver system_ralston slope_func = Ret (frame, details) /\
    nth_error frame 0 = Some (t_0 system_ralston, init system_ralston) /\
    nth_error frame 1 = Some (t_0 system_ralston + dt system_ralston, s1) /\
    spec_ralston_step slope_func (init system_ralston) (t_0 system_ralston)
      system_ralston = Ret s_stated /\
    this (G s1) = (121277 # 768)%Q /\
    this (G s_stated) = (323221 # 2048)%Q /\
    s1 <> s_stated.
Proof.
  exists (fst ode_result_ralston), (snd ode_result_ralston),
         (snd (nth 1 (fst ode_result_ralston) (0, init system_ralston))),
         (match spec_ralston_step slope_func (init system_ralston)
                  (t_0 system_ralston) system_ralston with
          | Ret s => s
          | _ => init system_ralston
          end).
  split; [vm_compute; reflexivity|].
  split; [vm_compute; reflexivity|].
  split; [vm_compute; reflexivity|].
  split; [vm_compute; reflexivity|].
  split; [vm_compute; reflexivity|].
  split; [vm_compute; reflexivity|].
  intro H. apply (f_equal (fun s => this (G s))) in H.
  vm_compute in H. discriminate.
Qed.

(** C8, amended: in a trajectory returned by [run_ode_solver] for a slope
    function [f], every row but the first follows from the row before it,
    [(t, s)], by Ralston's step with the coefficients 2/3 and 1/4, 3/4: it
    is recorded at [t + dt], and with [k1 = f(s, t)] and
    [k2 = f(s + (2/3)*dt*k1, t + (2/3)*dt)] its state is
    [s + dt * (1/4 * k1 + 3/4 * k2)], componentwise in G and X. *)
Theorem run_ode_solver_ralston_step
    (system : System) (f : State -> Qc -> System -> outcome (Qc * Qc))
    (frame pre post : TimeFrame) (details : nat) (t t' : Qc) (s s' : State) :
  run_ode_solver system f = Ret (frame, details) ->
  frame = pre ++ (t, s) :: (t', s') :: post ->
  t' = t + dt system /\
  exists k1 k2 : Qc * Qc,
    f s t system = Ret k1 /\
    f (mkState (G s + qc 2 3 * dt system * fst k1)
               (X s + qc 2 3 * dt system * snd k1))
      (t + qc 2 3 * dt system) system = Ret k2 /\
    G s' = G s + dt system * (qc 1 4 * fst k1 + qc 3 4 * fst k2) /\
    X s' = X s + dt system * (qc 1 4 * snd k1 + qc 3 4 * snd k2).
Proof.
  unfold run_ode_solver. intros H Hsplit.
  apply bind_Ret_inv in H. destruct H as (frame' & Hrun & H).
  injection H as <- _.
  destruct (run_simulation_adjacent _ _ _ _ _ _ _ _ _ Hrun Hsplit) as (Ht' & Hstep).
  split; [exact Ht'|].
  unfold ralston_step, project in Hstep.
  apply bind_Ret_inv in Hstep. destruct Hstep as (k1 & Hk1 & Hstep).
  apply bind_Ret_inv in Hstep. destruct Hstep as (k2 & Hk2 & Hstep).
  injection Hstep as <-. cbn [G X fst snd] in *.
  rewrite two_thirds_of in Hk2.
  replace (fst k1 * (qc 2 3 * dt system)) with (qc 2 3 * dt system * fst k1)
    in Hk2 by ring.
  replace (snd k1 * (qc 2 3 * dt system)) with (qc 2 3 * dt system * snd k1)
    in Hk2 by ring.
  exists k1, k2. split; [exact Hk1|]. split; [exact Hk2|].
  rewrite !quarter_of_sum. split; ring.
Qed.

Lemma run_ode_solver_ralston_step_witness :
  let frame := fst ode_result_ralston in
  let r0 := nth 0 frame (0, init system_ralston) in
  let r1 := nth 1 frame (0, init system_ralston) in
  run_ode_solver system_ralston slope_func = Ret (frame, snd ode_result_ralston) /\
  frame = [] ++ (fst r0, snd r0) :: (fst r1, snd r1) :: skipn 2 frame /\
  fst r1 = fst r0 + dt system_ralston /\
  exists k1 k2 : Qc * Qc,
    slope_func (snd r0) (fst r0) system_ralston = Ret k1 /\
    slope_func (mkState (G (snd r0) + qc 2 3 * dt system_ralston * fst k1)
                        (X (snd r0) + qc 2 3 * dt system_ralston * snd k1))
               (fst r0 + qc 2 3 * dt system_ralston) system_ralston = Ret k2 /\
    G (snd r1) = G (snd r0) + dt system_ralston * (qc 1 4 * fst k1 + qc 3 4 * fst k2) /\
    X (snd r1) = X (snd r0) + dt system_ralston * (qc 1 4 * snd k1 + qc 3 4 * snd k2).
Proof.
  intros frame r0 r1.
  assert (Hrun : run_ode_solver system_ralston slope_func
                 = Ret (frame, snd ode_result_ralston))
    by (vm_compute; reflexivity).
  assert (Hsplit : frame = [] ++ (fst r0, snd r0) :: (fst r1, snd r1) :: skipn 2 frame)
    by (vm_compute; reflexivity).
  split; [exact Hrun|]. split; [exact Hsplit|].
  exact (run_ode_solver_ralston_step system_ralston slope_func frame [] (skipn 2 frame)
           (snd ode_result_ralston) (fst r0) (fst r1) (snd r0) (snd r1) Hrun Hsplit).
Defined.

(** ** Frames on the store *)

Lemma store_update_last (h : Store) (frame : TimeFrame) (f : TimeFrame -> TimeFrame) :
  store_update (length h) f (h ++ [frame]) = h ++ [f frame].
Proof. induction h as [|x h IH]; simpl; [reflexivity | now rewrite IH]. Qed.

Lemma deref_last (h : Store) (frame : TimeFrame) :
  deref (length h) (h ++ [frame]) = frame.
Proof. unfold deref. induction h as [|x h IH]; simpl; [reflexivity | exact IH]. Qed.

Lemma deref_old (h : Store) (frame : TimeFrame) (r : nat) :
  (r < length h)%nat -> deref r (h ++ [frame]) = deref r h.
Proof. intro Hr. unfold deref. now apply app_nth1. Qed.

(** The loop on the store touches the frame it was given and no other:
    it is the loop on that frame, with the rest of the store kept. *)
Lemma simulate_st_simulate
    (system : System) (update_func : State -> Qc -> System -> outcome State)
    (ts : list Qc) (h : Store) (frame : TimeFrame) :
  simulate_st system update_func ts (length h) (h ++ [frame]) =
  (frame' <- simulate system update_func ts frame ;; Ret (h ++ [frame'])).
Proof.
  revert frame. induction ts as [|t ts IH]; intro frame; simpl; [reflexivity|].
  rewrite deref_last.
  destruct (row_get t frame) as [s| |]; simpl; try reflexivity.
  destruct (update_func s t system) as [s'| |]; simpl; try reflexivity.
  rewrite store_update_last. apply IH.
Qed.

(** A call of the driver allocates one frame after the frames of the
    store, fills it as [run_simulation] does, and leaves the others as they
    were. *)
Lemma run_simulation_st_run_simulation
    (system : System) (update_func : State -> Qc -> System -> outcome State)
    (h : Store) :
  run_simulation_st system update_func h =
  (frame <- run_simulation system update_func ;; Ret (length h, h ++ [frame])).
Proof.
  unfold run_simulation_st, run_simulation, new_TimeFrame.
  rewrite store_update_last.
  destruct (linrange (t_0 system) (t_end system) (dt system)) as [ts| |];
    simpl; try reflexivity.
  rewrite simulate_st_simulate.
  destruct (simulate system update_func ts _); reflexivity.
Qed.

(** C9: when a call of the driver has returned a trajectory, the next call
    with the same system and update function, made on the store that the
    first one left, returns a trajectory with the same rows in a frame of
    its own, and the frame of the first call is left as it was. *)
Theorem run_simulation_twice
    (system : System) (update_func : State -> Qc -> System -> outcome State)
    (h h1 : Store) (frame1 : nat) :
  run_simulation_st system update_func h = Ret (frame1, h1) ->
  exists (frame2 : nat) (h2 : Store),
    run_simulation_st system update_func h1 = Ret (frame2, h2) /\
    frame2 <> frame1 /\
    deref frame2 h2 = deref frame1 h1 /\
    deref frame1 h2 = deref frame1 h1 /\
    run_simulation system update_func = Ret (deref frame1 h1).
Proof.
  rewrite !run_simulation_st_run_simulation. intro H.
  apply bind_Ret_inv in H. destruct H as (frame & Hrun & H).
  injection H as <- <-. rewrite Hrun. simpl.
  exists (length (h ++ [frame])), ((h ++ [frame]) ++ [frame]).
  rewrite !deref_last.
  split; [reflexivity|]. split; [rewrite length_app; simpl; lia|].
  split; [reflexivity|]. split; [|reflexivity].
  rewrite deref_old; [apply deref_last | rewrite length_app; simpl; lia].
Qed.

Lemma run_simulation_twice_witness :
  run_simulation_st system0 update_func [] = Ret (fst store0, snd store0) /\
  exists (frame2 : nat) (h2 : Store),
    run_simulation_st system0 update_func (snd store0) = Ret (frame2, h2) /\
    frame2 <> fst store0 /\
    deref frame2 h2 = deref (fst store0) (snd store0) /\
    deref (fst store0) h2 = deref (fst store0) (snd store0) /\
    run_simulation system0 update_func = Ret (deref (fst store0) (snd store0)).
Proof.
  assert (H : run_simulation_st system0 update_func [] = Ret (fst store0, snd store0))
    by (vm_compute; reflexivity).
  split; [exact H|].
  exact (run_simulation_twice system0 update_func [] (snd store0) (fst store0) H).
Defined.

(** When the first call raises or does not come back, so does the second. *)
Lemma run_simulation_st_same_failure
    (system : System) (update_func : State -> Qc -> System -> outcome State)
    (h h' : Store) :
  (forall r, run_simulation_st system update_func h <> Ret r) ->
  run_simulation_st system update_func h'
  = run_simulation_st system update_func h.
Proof.
  rewrite !run_simulation_st_run_simulation.
  destruct (run_simulation system update_func) as [frame| |]; simpl; intro H.
  - exfalso. now apply (H (length h, h ++ [frame])).
  - reflexivity.
  - reflexivity.
Qed.

(** ** make_system *)

(** Whatever [make_system] returns has the step 2, the initial state
    (G0, 0), the first and last labels of the table as [t_0] and [t_end],
    and as baselines the glucose and insulin values found under the
    label 0. *)
Lemma make_system_Ret_inv
    (interpolate : Series -> outcome (Qc -> outcome Qc))
    (p : Params) (data : DataFrame) (system : System) :
  make_system interpolate p data = Ret system ->
  params system = p /\
  init system = mkState (G0 p) 0 /\
  dt system = qc 2 1 /\
  series_getitem 0 (column glucose data) = Ret (Gb system) /\
  series_getitem 0 (column insulin data) = Ret (Ib system) /\
  interpolate (column insulin data) = Ret (I system) /\
  get_first_label data = Ret (t_0 system) /\
  get_last_label data = Ret (t_end system).
Proof.
  unfold make_system. destruct p as [g0 c1 c2 c3]. intro H.
  apply bind_Ret_inv in H. destruct H as (gb & Hgb & H).
  apply bind_Ret_inv in H. destruct H as (ib & Hib & H).
  apply bind_Ret_inv in H. destruct H as (i & Hi & H).
  apply bind_Ret_inv in H. destruct H as (t0 & Ht0 & H).
  apply bind_Ret_inv in H. destruct H as (te & Hte & H).
  injection H as <-. simpl. repeat split; assumption.
Qed.

(** A table that starts after the time 0 has no row labelled 0:
    [data.glucose[0]] raises KeyError. *)
Lemma make_system_without_label_zero :
  make_system interpolate_linear params0 data_late = Raise (KeyError 0).
Proof. reflexivity. Qed.

(** C10, as stated, fails: on a table that starts at the time -2, with
    the row labelled 0 in second place, the baselines of the returned
    system are the values of the row labelled 0 (92 and 11), not those of
    the first row (350 and 26). *)
Lemma make_system_baseline_not_first_row :
  exists system,
    make_system interpolate_extrapolate params0 data_shifted = Ret system /\
    map time (firstn 1 data_shifted) = [qc (-2) 1] /\
    map glucose (firstn 1 data_shifted) = [qc 350 1] /\
    map insulin (firstn 1 data_shifted) = [qc 26 1] /\
    t_0 system = qc (-2) 1 /\
    Gb system = qc 92 1 /\
    Ib system = qc 11 1 /\
    Gb system <> qc 350 1 /\
    Ib system <> qc 26 1.
Proof.
  eexists. split; [reflexivity|]. cbn [Gb Ib t_0].
  repeat (split; [reflexivity|]). split.
  - intro H. apply Qc_eq_Qeq in H. vm_compute in H. discriminate.
  - intro H. apply Qc_eq_Qeq in H. vm_compute in H. discriminate.
Qed.

(** C10, amended: for a table with pairwise distinct labels whose first row
    [r] carries the label 0, and on whose insulin column [interpolate]
    returns the signal [I_f], [make_system] returns the system with the
    given params, the initial state (G0, 0), the glucose and insulin of [r]
    as [Gb] and [Ib], [I_f] as forcing signal, the labels of the first and
    of the last row as [t_0] and [t_end], and the step 2. *)
Theorem make_system_first_row_labelled_zero
    (interpolate : Series -> outcome (Qc -> outcome Qc))
    (p : Params) (r : Row) (data : DataFrame) (I_f : Qc -> outcome Qc) :
  time r = 0 ->
  distinct_labels (r :: data) ->
  interpolate (column insulin (r :: data)) = Ret I_f ->
  make_system interpolate p (r :: data) =
  Ret (mkSystem p (mkState (G0 p) 0) (glucose r) (insulin r) I_f
                (time r) (time (last data r)) (qc 2 1)).
Proof.
  intros Hr _ Hi.
  assert (Hg : series_getitem 0 (column glucose (r :: data)) = Ret (glucose r)).
  { simpl. now rewrite Hr, Qc_eqb_refl. }
  assert (Hins : series_getitem 0 (column insulin (r :: data)) = Ret (insulin r)).
  { simpl. now rewrite Hr, Qc_eqb_refl. }
  unfold make_system. destruct p as [g0 c1 c2 c3].
  rewrite Hg, Hins, Hi. reflexivity.
Qed.

Lemma make_system_first_row_labelled_zero_witness :
  time (mkRow 0 (qc 92 1) (qc 11 1)) = 0 /\
  distinct_labels data0 /\
  interpolate_linear (column insulin data0) = Ret (interp1d (column insulin data0)) /\
  make_system interpolate_linear params0 data0 =
  Ret (mkSystem params0 (mkState (G0 params0) 0) (qc 92 1) (qc 11 1)
                (interp1d (column insulin data0))
                0 (qc 6 1) (qc 2 1)).
Proof.
  assert (Hd : distinct_labels data0).
  { unfold distinct_labels, data0, labels. simpl.
    repeat (constructor;
            [ simpl; intros H;
              repeat (destruct H as [H | H];
                      [apply Qc_eq_Qeq in H; vm_compute in H; discriminate|]);
              exact H |]).
    constructor. }
  split; [reflexivity|]. split; [exact Hd|]. split; [reflexivity|].
  exact (make_system_first_row_labelled_zero interpolate_linear params0
           (mkRow 0 (qc 92 1) (qc 11 1)) (tl data0) (interp1d (column insulin data0))
           eq_refl Hd eq_refl).
Defined.

(** * Further properties of the notebook's functions *)

(** ** make_system: the baseline lookup *)

Lemma series_loc_missing (key : Qc) (value : Row -> Qc) (data : DataFrame) :
  ~ In key (labels data) ->
  series_loc key (column value data) = Raise (KeyError key).
Proof.
  induction data as [|r data IH]; simpl; intro Hnin; [reflexivity|].
  destruct (Qc_eqb (time r) key) eqn:E.
  - apply Qc_eqb_eq in E. exfalso. apply Hnin. now left.
  - apply IH. intro Hin. apply Hnin. now right.
Qed.

Lemma series_loc_Raise (key : Qc) (value : Row -> Qc) (data : DataFrame) (e : exn) :
  series_loc key (column value data) = Raise e ->
  e = KeyError key /\ ~ In key (labels data).
Proof.
  induction data as [|r data IH]; simpl.
  - intro H. injection H as <-. split; [reflexivity | tauto].
  - destruct (Qc_eqb (time r) key) eqn:E; [discriminate|].
    intro H. destruct (IH H) as [He Hnin]. split; [exact He|].
    apply Qc_eqb_neq in E. intros [Heq | Hin]; [now apply E | now apply Hnin].
Qed.

Lemma series_getitem_missing (key : Qc) (value : Row -> Qc) (data : DataFrame) :
  data <> [] ->
  ~ In key (labels data) ->
  series_getitem key (column value data) = Raise (KeyError key).
Proof.
  intros Hne Hnin. destruct data as [|r data]; [congruence|].
  exact (series_loc_missing key value (r :: data) Hnin).
Qed.

Lemma series_getitem_found (key : Qc) (value : Row -> Qc)
    (pre post : DataFrame) (r : Row) :
  time r = key ->
  ~ In key (labels pre) ->
  series_getitem key (column value (pre ++ r :: post)) = Ret (value r).
Proof.
  intros Hr Hnin.
  assert (H : series_loc key (column value (pre ++ r :: post)) = Ret (value r)).
  { induction pre as [|r0 pre IH]; simpl.
    - now rewrite Hr, Qc_eqb_refl.
    - destruct (Qc_eqb (time r0) key) eqn:E.
      + apply Qc_eqb_eq in E. exfalso. apply Hnin. now left.
      + apply IH. intro Hin. apply Hnin. now right. }
  destruct pre; exact H.
Qed.

Lemma series_getitem_Raise (key : Qc) (value : Row -> Qc) (data : DataFrame) (e : exn) :
  series_getitem key (column value data) = Raise e ->
  (data = [] /\ e = IndexError) \/
  (data <> [] /\ e = KeyError key /\ ~ In key (labels data)).
Proof.
  destruct data as [|r data].
  - simpl. intro H. injection H as <-. now left.
  - intro H. right. split; [discriminate|].
    exact (series_loc_Raise key value (r :: data) e H).
Qed.

Lemma series_getitem_no_Diverge (key : Qc) (s : Series) :
  series_getitem key s <> Diverge.
Proof.
  destruct s as [|p s]; [discriminate|]. unfold series_getitem.
  induction (p :: s) as [|[l v] s' IH]; simpl; [discriminate|].
  destruct (Qc_eqb l key); [discriminate | exact IH].
Qed.

Lemma series_getitem_Ret_nonempty (key v : Qc) (value : Row -> Qc) (data : DataFrame) :
  series_getitem key (column value data) = Ret v -> data <> [].
Proof. destruct data; simpl; [discriminate | discriminate]. Qed.

Lemma last_cons_default {A : Type} (l : list A) (a d : A) :
  last (a :: l) d = last l a.
Proof.
  revert a d. induction l as [|b l IH]; intros a d; [reflexivity|].
  change (last (a :: b :: l) d) with (last (b :: l) d).
  now rewrite !IH.
Qed.

Lemma last_app_cons {A : Type} (pre post : list A) (r d : A) :
  last (pre ++ r :: post) d = last post r.
Proof.
  revert d. induction pre as [|a pre IH]; intro d; simpl app.
  - apply last_cons_default.
  - rewrite last_cons_default. apply IH.
Qed.

(** X1: on a table that has rows, none of them labelled 0, [make_system]
    raises KeyError for the label 0, whatever the params and whatever
    [interpolate] would do. *)
Theorem make_system_missing_label_zero
    (interpolate : Series -> outcome (Qc -> outcome Qc))
    (p : Params) (data : DataFrame) :
  data <> [] ->
  ~ In 0 (labels data) ->
  make_system interpolate p data = Raise (KeyError 0).
Proof.
  intros Hne Hnin. unfold make_system. destruct p as [g0 c1 c2 c3].
  rewrite (series_getitem_missing 0 glucose data Hne Hnin). reflexivity.
Qed.

Lemma make_system_missing_label_zero_witness :
  data_late <> [] /\
  ~ In 0 (labels data_late) /\
  make_system interpolate_extrapolate params0 data_late = Raise (KeyError 0).
Proof.
  assert (Hne : data_late <> []) by discriminate.
  assert (H : ~ In 0 (labels data_late)).
  { simpl. intro H.
    repeat (destruct H as [H | H];
            [apply Qc_eq_Qeq in H; vm_compute in H; discriminate|]).
    exact H. }
  split; [exact Hne|]. split; [exact H|].
  exact (make_system_missing_label_zero interpolate_extrapolate params0 data_late Hne H).
Defined.

(** X2: the baselines are those of the first row that carries the label
    0, wherever it stands in the table: when [interpolate] returns a signal,
    [make_system] returns the system with that row's glucose and insulin as
    [Gb] and [Ib], the labels of the first and last row as [t_0] and
    [t_end], the initial state (G0, 0) and the step 2. *)
Theorem make_system_baseline_at_label_zero
    (interpolate : Series -> outcome (Qc -> outcome Qc))
    (p : Params) (pre post : DataFrame) (r : Row) (I_f : Qc -> outcome Qc) :
  time r = 0 ->
  ~ In 0 (labels pre) ->
  interpolate (column insulin (pre ++ r :: post)) = Ret I_f ->
  make_system interpolate p (pre ++ r :: post) =
  Ret (mkSystem p (mkState (G0 p) 0) (glucose r) (insulin r) I_f
                (time (hd r pre)) (time (last post r)) (qc 2 1)).
Proof.
  intros Hr Hnin Hi. unfold make_system. destruct p as [g0 c1 c2 c3].
  rewrite (series_getitem_found 0 glucose pre post r Hr Hnin).
  rewrite (series_getitem_found 0 insulin pre post r Hr Hnin).
  rewrite Hi. cbn [bind G0].
  assert (Hfirst : get_first_label (pre ++ r :: post) = Ret (time (hd r pre))).
  { destruct pre; reflexivity. }
  assert (Hlast : get_last_label (pre ++ r :: post) = Ret (time (last post r))).
  { destruct pre as [|r0 pre]; [reflexivity|].
    change ((r0 :: pre) ++ r :: post) with (r0 :: (pre ++ r :: post)).
    cbn [get_last_label]. now rewrite last_app_cons. }
  rewrite Hfirst, Hlast. reflexivity.
Qed.

Lemma make_system_baseline_at_label_zero_witness :
  let r := mkRow 0 (qc 92 1) (qc 11 1) in
  let pre := [mkRow (qc (-2) 1) (qc 350 1) (qc 26 1)] in
  let post := [mkRow (qc 4 1) (qc 287 1) (qc 130 1); mkRow (qc 6 1) (qc 251 1) (qc 85 1)] in
  time r = 0 /\
  ~ In 0 (labels pre) /\
  interpolate_extrapolate (column insulin (pre ++ r :: post))
    = Ret (interp1d_extrapolate (column insulin data_shifted)) /\
  make_system interpolate_extrapolate params0 (pre ++ r :: post) =
  Ret (mkSystem params0 (mkState (G0 params0) 0) (glucose r) (insulin r)
                (interp1d_extrapolate (column insulin data_shifted))
                (time (hd r pre)) (time (last post r)) (qc 2 1)).
Proof.
  intros r pre post.
  assert (Hnin : ~ In 0 (labels pre)).
  { simpl. intros [H | []]. apply Qc_eq_Qeq in H. vm_compute in H. discriminate. }
  split; [reflexivity|]. split; [exact Hnin|]. split; [reflexivity|].
  exact (make_system_baseline_at_label_zero interpolate_extrapolate params0 pre post r
           (interp1d_extrapolate (column insulin data_shifted)) eq_refl Hnin eq_refl).
Defined.

(** X3: what [make_system] can raise.  An exception that it raises is
    IndexError, on the empty table; or KeyError for the label 0, on a table
    with rows none of which is labelled 0; or else it is the exception
    that [interpolate] raised on the insulin column. *)
Theorem make_system_failures
    (interpolate : Series -> outcome (Qc -> outcome Qc))
    (p : Params) (data : DataFrame) (e : exn) :
  make_system interpolate p data = Raise e ->
  (data = [] /\ e = IndexError) \/
  (data <> [] /\ e = KeyError 0 /\ ~ In 0 (labels data)) \/
  interpolate (column insulin data) = Raise e.
Proof.
  unfold make_system. destruct p as [g0 c1 c2 c3].
  destruct (series_getitem 0 (column glucose data)) as [gb|e1|] eqn:Eg; cbn [bind].
  2:{ intro H. injection H as <-.
      destruct (series_getitem_Raise _ _ _ _ Eg) as [H | H]; [now left | right; now left]. }
  2:{ discriminate. }
  destruct (series_getitem 0 (column insulin data)) as [ib|e2|] eqn:Ei; cbn [bind].
  2:{ intro H. injection H as <-.
      destruct (series_getitem_Raise _ _ _ _ Ei) as [H | H]; [now left | right; now left]. }
  2:{ discriminate. }
  destruct (interpolate (column insulin data)) as [I_f|e3|]; cbn [bind].
  2:{ intro H. injection H as <-. right. now right. }
  2:{ discriminate. }
  apply series_getitem_Ret_nonempty in Eg.
  destruct data as [|r data]; [congruence|]. simpl. discriminate.
Qed.

Lemma make_system_failures_witness :
  make_system interpolate_extrapolate params0 [] = Raise IndexError /\
  (([] : DataFrame) = [] /\ IndexError = IndexError \/
   (([] : DataFrame) <> [] /\ IndexError = KeyError 0 /\ ~ In 0 (labels [])) \/
   interpolate_extrapolate (column insulin []) = Raise IndexError).
Proof.
  assert (H : make_system interpolate_extrapolate params0 [] = Raise IndexError)
    by reflexivity.
  split; [exact H|].
  exact (make_system_failures interpolate_extrapolate params0 [] IndexError H).
Defined.

(** ** update_func and slope_func: the baseline and the signs *)

Lemma Q_glucose_step (g gb x c1 h : Q) :
  (0 <= c1 -> 0 <= h -> gb <= g -> 0 <= x -> 0 <= g ->
   g + (- c1 * (g - gb) - x * g) * h <= g)%Q.
Proof.
  intros.
  assert (0 <= c1 * (g - gb) * h)%Q
    by (apply Qmult_le_0_compat; [apply Qmult_le_0_compat|]; lra).
  assert (0 <= x * g * h)%Q
    by (apply Qmult_le_0_compat; [apply Qmult_le_0_compat|]; lra).
  nra.
Qed.

(** The same on [Qc], with the products. *)
Ltac qc2q_mul :=
  unfold Qclt, Qcle, Qcminus, Qcplus, Qcmult, Qcopp, Q2Qc in *;
  cbn [this] in *;
  repeat (setoid_rewrite Qred_correct);
  repeat match goal with
  | H : context [Qred _] |- _ => setoid_rewrite Qred_correct in H
  end.

Lemma Qc_glucose_step (g gb x c1 h : Qc) :
  0 <= c1 -> 0 <= h -> gb <= g -> 0 <= x -> 0 <= g ->
  g + (- c1 * (g - gb) - x * g) * h <= g.
Proof. intros. qc2q_mul. now apply Q_glucose_step. Qed.

(** X4: the baseline is a fixed point.  At the state (G = Gb, X = 0) and a
    time at which the forcing signal returns [Ib], the slopes are zero and
    [update_func] returns the state unchanged, whatever the rate constants
    and the step. *)
Theorem baseline_is_fixed_point (t : Qc) (system : System) :
  I system t = Ret (Ib system) ->
  slope_func (mkState (Gb system) 0) t system = Ret (0, 0) /\
  update_func (mkState (Gb system) 0) t system = Ret (mkState (Gb system) 0).
Proof.
  intro Hi. rewrite slope_func_unfold, update_func_unfold, Hi. cbn [bind].
  split; apply f_equal; apply f_equal2; ring.
Qed.

Lemma baseline_is_fixed_point_witness :
  I system_decoupled (qc 2 1) = Ret (Ib system_decoupled) /\
  slope_func (mkState (Gb system_decoupled) 0) (qc 2 1) system_decoupled = Ret (0, 0) /\
  update_func (mkState (Gb system_decoupled) 0) (qc 2 1) system_decoupled
    = Ret (mkState (Gb system_decoupled) 0).
Proof.
  split; [reflexivity|].
  exact (baseline_is_fixed_point (qc 2 1) system_decoupled eq_refl).
Defined.

(** X5: glucose does not rise in a step taken at or above the baseline:
    with k1 >= 0, dt >= 0, X >= 0 and G >= Gb, G >= 0, the state that
    [update_func] returns has a G that is at most the G it was given. *)
Theorem update_func_glucose_does_not_rise
    (g x t : Qc) (system : System) (s' : State) :
  0 <= k1 (params system) ->
  0 <= dt system ->
  Gb system <= g ->
  0 <= g ->
  0 <= x ->
  update_func (mkState g x) t system = Ret s' ->
  G s' <= g.
Proof.
  intros Hk1 Hdt Hgb Hg Hx. rewrite update_func_unfold.
  destruct (I system t) as [i| |]; cbn [bind]; try discriminate.
  intro H. injection H as <-. cbn [G].
  now apply Qc_glucose_step.
Qed.

Lemma update_func_glucose_does_not_rise_witness :
  let s' := nth 1 (map snd trajectory0) (init system0) in
  0 <= k1 (params system0) /\
  0 <= dt system0 /\
  Gb system0 <= qc 290 1 /\
  0 <= qc 290 1 /\
  0 <= 0 /\
  update_func (mkState (qc 290 1) 0) 0 system0 = Ret s' /\
  G s' <= qc 290 1.
Proof.
  intro s'.
  assert (H1 : 0 <= k1 (params system0)) by (vm_compute; discriminate).
  assert (H2 : 0 <= dt system0) by (vm_compute; discriminate).
  assert (H3 : Gb system0 <= qc 290 1) by (vm_compute; discriminate).
  assert (H4 : 0 <= qc 290 1) by (vm_compute; discriminate).
  assert (H5 : 0 <= 0) by (vm_compute; discriminate).
  assert (H6 : update_func (mkState (qc 290 1) 0) 0 system0 = Ret s')
    by (vm_compute; reflexivity).
  repeat (split; [assumption|]).
  exact (update_func_glucose_does_not_rise (qc 290 1) 0 0 system0 s' H1 H2 H3 H4 H5 H6).
Defined.

(** ** run_simulation: which times it visits, which states it passes on *)

(** The times that [linrange] returns lie in the window from [t_0] to
    [t_end], the end excluded. *)
Lemma linrange_window (t_0 t_end dt : Qc) (ts : list Qc) :
  linrange t_0 t_end dt = Ret ts ->
  forall t, In t ts -> t_0 <= t /\ t < t_end.
Proof.
  intros H t Hin. apply linrange_Ret in H. destruct H as (Hg & Hlt & _ & Hpos).
  split; [|now apply Hlt].
  destruct Hpos as [-> | Hdt]; [destruct Hin|].
  rewrite Hg in Hin. apply grid_In in Hin. destruct Hin as (i & _ & ->).
  apply grid_point_ge. now apply Qclt_le_weak.
Qed.

(** An index whose grid point is below [t_end] is an index of the
    grid that stops at [t_end]. *)
Lemma grid_index_below (t dt t_end : Qc) (n k : nat) :
  0 < dt ->
  t_end <= grid_point t dt n ->
  grid_point t dt k < t_end ->
  (k < n)%nat.
Proof.
  intros Hdt Hend Hk.
  destruct (Nat.lt_ge_cases k n) as [Hlt | Hge]; [exact Hlt|].
  exfalso.
  pose proof (grid_point_mono t dt n k (Qclt_le_weak _ _ Hdt) Hge) as Hm.
  generalize dependent (grid_point t dt n).
  generalize dependent (grid_point t dt k). intros a Ha b Hb Hab. qc_lra.
Qed.

Lemma nth_error_grid (t dt x : Qc) (n i : nat) :
  nth_error (grid t dt n) i = Some x -> x = grid_point t dt i.
Proof.
  revert t i. induction n as [|n IH]; intros t [|i]; simpl; try discriminate.
  - intro H. now injection H.
  - apply IH.
Qed.

Section DriverSteps.

Variable system : System.
Variable update : State -> Qc -> System -> outcome State.

(** A property of states that the update function preserves at the times
    it is called with holds for everything [unroll] records. *)
Lemma unroll_invariant (P : State -> Prop) (ts : list Qc) (s : State)
    (rest : TimeFrame) :
  P s ->
  (forall s1 t s2, In t ts -> P s1 -> update s1 t system = Ret s2 -> P s2) ->
  unroll system update ts s = Ret rest ->
  forall t' s', In (t', s') rest -> P s'.
Proof.
  revert s rest. induction ts as [|t ts IH]; intros s rest Hs Hstep; simpl.
  - intro H. injection H as <-. intros t' s' [].
  - intro H. apply bind_Ret_inv in H. destruct H as (s1 & Hs1 & H).
    apply bind_Ret_inv in H. destruct H as (rest' & Hrest' & H).
    injection H as <-.
    assert (P s1) by (apply (Hstep s t s1); [now left | assumption | assumption]).
    intros t' s' [Heq | Hin].
    + injection Heq as _ <-. assumption.
    + apply (IH s1 rest') with t'; try assumption.
      intros a b c Hb. apply Hstep. now right.
Qed.

(** [unroll] returns when the update function returns at the times of the
    list, and then only. *)
Lemma unroll_returns_on (ts : list Qc) (s : State) :
  (forall s1 t, In t ts -> exists s2, update s1 t system = Ret s2) ->
  exists rest, unroll system update ts s = Ret rest.
Proof.
  revert s. induction ts as [|t ts IH]; intros s Htot; simpl.
  - now exists [].
  - destruct (Htot s t (or_introl eq_refl)) as (s' & ->). cbn [bind].
    destruct (IH s') as (rest & ->).
    + intros s1 t1 Hin. apply Htot. now right.
    + cbn [bind]. eauto.
Qed.

Lemma unroll_Ret_each (ts : list Qc) (s : State) (rest : TimeFrame) :
  unroll system update ts s = Ret rest ->
  forall t, In t ts -> exists s1 s2, update s1 t system = Ret s2.
Proof.
  revert s rest. induction ts as [|t ts IH]; intros s rest; simpl.
  - intros _ t [].
  - intro H. apply bind_Ret_inv in H. destruct H as (s1 & Hs1 & H).
    apply bind_Ret_inv in H. destruct H as (rest' & Hrest' & _).
    intros t1 [<- | Hin]; [eauto | exact (IH s1 rest' Hrest' t1 Hin)].
Qed.

(** What a returned trajectory consists of, with the window of the times
    at which the update function was called. *)
Lemma run_simulation_Ret_window (frame : TimeFrame) :
  run_simulation system update = Ret frame ->
  exists (ts : list Qc) (rest : TimeFrame),
    frame = (t_0 system, init system) :: rest /\
    unroll system update ts (init system) = Ret rest /\
    forall t, In t ts -> t_0 system <= t /\ t < t_end system.
Proof.
  rewrite run_simulation_unroll. intro H.
  apply bind_Ret_inv in H. destruct H as (ts & Hts & H).
  apply bind_Ret_inv in H. destruct H as (rest & Hrest & H).
  injection H as <-. exists ts, rest.
  split; [reflexivity|]. split; [exact Hrest|].
  exact (linrange_window _ _ _ _ Hts).
Qed.

Lemma run_simulation_invariant_aux (P : State -> Prop) (frame : TimeFrame) :
  P (init system) ->
  (forall s t s', P s -> t_0 system <= t -> t < t_end system ->
                  update s t system = Ret s' -> P s') ->
  run_simulation system update = Ret frame ->
  forall t s, In (t, s) frame -> P s.
Proof.
  intros Hinit Hstep H.
  apply run_simulation_Ret_window in H. destruct H as (ts & rest & -> & Hrest & Hwin).
  intros t s [Heq | Hin].
  - injection Heq as _ <-. exact Hinit.
  - apply (unroll_invariant P ts (init system) rest Hinit) with t; try assumption.
    intros s1 t1 s2 Hin1 Hs1. destruct (Hwin t1 Hin1). now apply Hstep.
Qed.

Lemma run_simulation_returns_on_window :
  0 < dt system ->
  (forall s t, t_0 system <= t -> t < t_end system ->
               exists s', update s t system = Ret s') ->
  exists frame, run_simulation system update = Ret frame.
Proof.
  intros Hdt Htot. rewrite run_simulation_unroll.
  destruct (linrange_returns (t_0 system) (t_end system) (dt system) Hdt) as (ts & Hts).
  rewrite Hts. cbn [bind].
  destruct (unroll_returns_on ts (init system)) as (rest & ->).
  - intros s1 t Hin. destruct (linrange_window _ _ _ _ Hts t Hin). now apply Htot.
  - cbn [bind]. eauto.
Qed.

End DriverSteps.

(** X6: an invariant of the update function is an invariant of the
    trajectory.  When a property of states holds for the initial state and
    is preserved by every returning call of the update function at a time
    from [t_0] up to, but not including, [t_end], it holds for the state of
    every row that [run_simulation] returns. *)
Theorem run_simulation_invariant
    (system : System) (update : State -> Qc -> System -> outcome State)
    (P : State -> Prop) (frame : TimeFrame) :
  P (init system) ->
  (forall s t s', P s -> t_0 system <= t -> t < t_end system ->
                  update s t system = Ret s' -> P s') ->
  run_simulation system update = Ret frame ->
  forall t s, In (t, s) frame -> P s.
Proof. apply run_simulation_invariant_aux. Qed.

Lemma run_simulation_invariant_witness :
  let P := fun s : State => X s = 0 /\ G s = qc 290 1 in
  P (init system_decoupled) /\
  (forall s t s', P s -> t_0 system_decoupled <= t -> t < t_end system_decoupled ->
                  update_func s t system_decoupled = Ret s' -> P s') /\
  run_simulation system_decoupled update_func = Ret trajectory_decoupled /\
  forall t s, In (t, s) trajectory_decoupled -> P s.
Proof.
  intro P.
  assert (H1 : P (init system_decoupled)) by (split; reflexivity).
  assert (H2 : forall s t s', P s -> t_0 system_decoupled <= t ->
                 t < t_end system_decoupled ->
                 update_func s t system_decoupled = Ret s' -> P s').
  { intros [g x] t s' [Hx Hg] _ _. cbn [X G] in Hx, Hg. subst x g.
    rewrite update_func_unfold. cbn [bind I system_decoupled].
    intro H. injection H as <-. split; cbn [X G]; ring. }
  assert (H3 : run_simulation system_decoupled update_func = Ret trajectory_decoupled)
    by (vm_compute; reflexivity).
  split; [exact H1|]. split; [exact H2|]. split; [exact H3|].
  exact (run_simulation_invariant system_decoupled update_func P
           trajectory_decoupled H1 H2 H3).
Defined.

(** X8: the baseline is a steady state of the simulation.  When the
    initial state is (Gb, 0), the step is positive, t_0 <= t_end and the
    forcing signal returns [Ib] from [t_0] up to [t_end],
    [run_simulation] with [update_func] returns a trajectory, and every
    row of it holds the initial state. *)
Theorem baseline_trajectory_is_constant (system : System) :
  0 < dt system ->
  t_0 system <= t_end system ->
  init system = mkState (Gb system) 0 ->
  (forall t, t_0 system <= t -> t < t_end system -> I system t = Ret (Ib system)) ->
  exists frame,
    run_simulation system update_func = Ret frame /\
    forall t s, In (t, s) frame -> s = init system.
Proof.
  intros Hdt _ Hinit Hsig.
  destruct (run_simulation_returns_on_window system update_func Hdt) as (frame & Hrun).
  { intros [g x] t Ht0 Hte. rewrite update_func_unfold, (Hsig t Ht0 Hte).
    cbn [bind]. eauto. }
  exists frame. split; [exact Hrun|].
  apply (run_simulation_invariant_aux system update_func
           (fun s => s = init system) frame); [reflexivity | | exact Hrun].
  intros s t s' -> Ht0 Hte. rewrite Hinit.
  rewrite update_func_unfold, (Hsig t Ht0 Hte). cbn [bind].
  intro H. injection H as <-. f_equal; ring.
Qed.

Lemma baseline_trajectory_is_constant_witness :
  let system := mkSystem params0 (mkState (qc 92 1) 0) (qc 92 1) (qc 11 1)
                         (fun _ => Ret (qc 11 1)) 0 (qc 6 1) (qc 2 1) in
  0 < dt system /\
  t_0 system <= t_end system /\
  init system = mkState (Gb system) 0 /\
  (forall t, t_0 system <= t -> t < t_end system -> I system t = Ret (Ib system)) /\
  exists frame,
    run_simulation system update_func = Ret frame /\
    forall t s, In (t, s) frame -> s = init system.
Proof.
  intro system.
  assert (H1 : 0 < dt system) by reflexivity.
  assert (H0 : t_0 system <= t_end system) by (vm_compute; discriminate).
  assert (H2 : init system = mkState (Gb system) 0) by reflexivity.
  assert (H3 : forall t, t_0 system <= t -> t < t_end system ->
                         I system t = Ret (Ib system)) by reflexivity.
  split; [exact H1|]. split; [exact H0|]. split; [exact H2|]. split; [exact H3|].
  exact (baseline_trajectory_is_constant system H1 H0 H2 H3).
Defined.

(** ** run_simulation: what it depends on *)

(** Two runs agree when the systems have the same times, step and initial
    state and the update functions agree at the times of the window. *)
Lemma unroll_ext (system1 system2 : System)
    (update1 update2 : State -> Qc -> System -> outcome State)
    (ts : list Qc) (s : State) :
  dt system1 = dt system2 ->
  (forall t s, In t ts -> update1 s t system1 = update2 s t system2) ->
  unroll system1 update1 ts s = unroll system2 update2 ts s.
Proof.
  intros Hdt. revert s. induction ts as [|t ts IH]; intros s Hext; simpl.
  - reflexivity.
  - rewrite (Hext t s (or_introl eq_refl)), Hdt.
    destruct (update2 s t system2) as [s'| |]; cbn [bind]; try reflexivity.
    rewrite (IH s'); [reflexivity|].
    intros t1 s1 Hin. apply Hext. now right.
Qed.

Lemma run_simulation_ext (system1 system2 : System)
    (update1 update2 : State -> Qc -> System -> outcome State) :
  t_0 system1 = t_0 system2 ->
  t_end system1 = t_end system2 ->
  dt system1 = dt system2 ->
  init system1 = init system2 ->
  (forall t s, t_0 system2 <= t -> t < t_end system2 ->
               update1 s t system1 = update2 s t system2) ->
  run_simulation system1 update1 = run_simulation system2 update2.
Proof.
  intros H0 He Hdt Hinit Hext. rewrite !run_simulation_unroll.
  rewrite H0, He, Hdt, Hinit.
  destruct (linrange (t_0 system2) (t_end system2) (dt system2)) as [ts| |] eqn:E;
    cbn [bind]; try reflexivity.
  rewrite (unroll_ext system1 system2 update1 update2 ts (init system2) Hdt);
    [reflexivity|].
  intros t s Hin. destruct (linrange_window _ _ _ _ E t Hin). now apply Hext.
Qed.

(** X9: [run_simulation] with [update_func] is the forward Euler method
    for [slope_func]: it has the same outcome, trajectory or failure, as
    the driver run with the update function [state + dt * slope_func(state,
    t, system)]. *)
Theorem run_simulation_is_euler_on_slope_func (system : System) :
  run_simulation system update_func
  = run_simulation system (euler_step slope_func).
Proof.
  apply run_simulation_ext; try reflexivity.
  intros t [g x] _ _. unfold euler_step.
  rewrite update_func_unfold, slope_func_unfold.
  destruct (I system t) as [i| |]; cbn [bind]; try reflexivity.
  unfold state_axpy. cbn [G X fst snd].
  apply f_equal; apply f_equal2; ring.
Qed.

(** X10: the driver asks the forcing signal for nothing outside the
    window from [t_0] to [t_end], the end excluded: replacing the signal by
    one that agrees with it on that window changes neither the trajectory
    nor the failure of [run_simulation] with [update_func]. *)
Theorem run_simulation_reads_signal_before_t_end
    (system : System) (I' : Qc -> outcome Qc) :
  (forall t, t_0 system <= t -> t < t_end system -> I' t = I system t) ->
  run_simulation (with_I system I') update_func
  = run_simulation system update_func.
Proof.
  intro Hsig. apply run_simulation_ext; try reflexivity.
  intros t [g x] Ht0 Hte. rewrite !update_func_unfold.
  cbn [with_I I params Gb Ib dt]. now rewrite (Hsig t Ht0 Hte).
Qed.

Lemma run_simulation_reads_signal_before_t_end_witness :
  (forall t, t_0 system0 <= t -> t < t_end system0 -> signal_cut t = I system0 t) /\
  signal_cut (t_end system0) <> I system0 (t_end system0) /\
  run_simulation (with_I system0 signal_cut) update_func
  = run_simulation system0 update_func.
Proof.
  assert (H : forall t, t_0 system0 <= t -> t < t_end system0 ->
                        signal_cut t = I system0 t).
  { intros t _ Hte. unfold signal_cut. apply Qc_ltb_lt in Hte. now rewrite Hte. }
  split; [exact H|]. split.
  - vm_compute. discriminate.
  - exact (run_simulation_reads_signal_before_t_end system0 signal_cut H).
Defined.

(** ** run_simulation: when it returns and what it raises *)

Lemma update_func_Ret_signal (s s' : State) (t : Qc) (system : System) :
  update_func s t system = Ret s' -> exists i, I system t = Ret i.
Proof.
  destruct s as [g x]. rewrite update_func_unfold.
  destruct (I system t) as [i| |]; cbn [bind]; try discriminate. eauto.
Qed.

Lemma update_func_signal_Ret (s : State) (t i : Qc) (system : System) :
  I system t = Ret i -> exists s', update_func s t system = Ret s'.
Proof.
  intro Hi. destruct s as [g x]. rewrite update_func_unfold, Hi. cbn [bind]. eauto.
Qed.

(** X11: with a positive step and an end time that is n steps after
    [t_0], [run_simulation] with [update_func] returns a trajectory
    exactly when the forcing signal returns a value at each of the n grid
    times t_0, t_0 + dt, ..., t_end - dt. *)
Theorem run_simulation_returns_iff_signal_defined (system : System) (n : nat) :
  0 < dt system ->
  t_end system = grid_point (t_0 system) (dt system) n ->
  (exists frame, run_simulation system update_func = Ret frame) <->
  (forall k, (k < n)%nat ->
             exists i, I system (grid_point (t_0 system) (dt system) k) = Ret i).
Proof.
  intros Hdt Hn. split.
  - intros (frame & H) k Hk.
    apply run_simulation_Ret in H.
    destruct H as (n' & rest & _ & Hrest & _ & Hlt & Hend & _).
    assert (n' = n) by (eapply grid_index_unique; eassumption). subst n'.
    destruct (unroll_Ret_each system update_func _ _ _ Hrest
                (grid_point (t_0 system) (dt system) k)) as (s1 & s2 & Hs).
    + apply grid_In. exists k. now split.
    + exact (update_func_Ret_signal _ _ _ _ Hs).
  - intro Hsig. rewrite run_simulation_unroll.
    destruct (linrange_returns (t_0 system) (t_end system) (dt system) Hdt) as (ts & Hts).
    rewrite Hts. cbn [bind].
    pose proof (linrange_Ret _ _ _ _ Hts) as (Hg & Hlt & Hend & _).
    assert (Hlen : length ts = n).
    { apply (grid_index_unique (t_0 system) (dt system) (t_end system));
        try assumption.
      now rewrite <- Hg. }
    destruct (unroll_returns_on system update_func ts (init system)) as (rest & ->).
    + intros s1 t Hin.
      rewrite Hg in Hin. apply grid_In in Hin. destruct Hin as (k & Hk & ->).
      rewrite Hlen in Hk. destruct (Hsig k Hk) as (i & Hi).
      exact (update_func_signal_Ret s1 _ i system Hi).
    + cbn [bind]. eauto.
Qed.

Lemma run_simulation_returns_iff_signal_defined_witness :
  0 < dt system_short_signal /\
  t_end system_short_signal
    = grid_point (t_0 system_short_signal) (dt system_short_signal) 5 /\
  ((exists frame, run_simulation system_short_signal update_func = Ret frame) <->
   (forall k, (k < 5)%nat ->
              exists i, I system_short_signal
                          (grid_point (t_0 system_short_signal)
                                      (dt system_short_signal) k) = Ret i)).
Proof.
  assert (H : 0 < dt system_short_signal) by reflexivity.
  assert (Hn : t_end system_short_signal
               = grid_point (t_0 system_short_signal) (dt system_short_signal) 5)
    by (apply Qc_is_canon; reflexivity).
  split; [exact H|]. split; [exact Hn|].
  exact (run_simulation_returns_iff_signal_defined system_short_signal 5 H Hn).
Defined.

(** The exception of the first time at which the update function raises
    is the outcome of [unroll]. *)
Lemma unroll_first_failure (system : System) (e : exn) (k : nat) :
  forall (n : nat) (t : Qc) (s : State),
  (k < n)%nat ->
  (forall j, (j < k)%nat ->
             exists i, I system (grid_point t (dt system) j) = Ret i) ->
  I system (grid_point t (dt system) k) = Raise e ->
  unroll system update_func (grid t (dt system) n) s = Raise e.
Proof.
  induction k as [|k IH]; intros n t s Hkn Hbefore Hfail.
  - destruct n as [|n]; [lia|]. destruct s as [g x]. cbn [grid unroll].
    cbn [grid_point] in Hfail. now rewrite update_func_unfold, Hfail.
  - destruct n as [|n]; [lia|]. cbn [grid unroll].
    destruct (Hbefore O) as (i & Hi); [lia|]. cbn [grid_point] in Hi.
    destruct (update_func_signal_Ret s t i system Hi) as (s' & ->). cbn [bind].
    rewrite (IH n (t + dt system) s'); [reflexivity | lia | | exact Hfail].
    intros j Hj. apply (Hbefore (S j)). lia.
Qed.

(** X12: a failure of the forcing signal stops the simulation.  With a
    positive step and an end time that is n steps after [t_0], when the
    signal raises [e] at one of the grid times t_0 + k*dt, k < n, and has
    returned at the grid times before it, [run_simulation] with
    [update_func] raises [e]: no trajectory, not even the rows computed so
    far, is returned. *)
Theorem run_simulation_raises_at_first_undefined_time
    (system : System) (e : exn) (n k : nat) :
  0 < dt system ->
  t_end system = grid_point (t_0 system) (dt system) n ->
  (k < n)%nat ->
  (forall j, (j < k)%nat ->
             exists i, I system (grid_point (t_0 system) (dt system) j) = Ret i) ->
  I system (grid_point (t_0 system) (dt system) k) = Raise e ->
  run_simulation system update_func = Raise e.
Proof.
  intros Hdt Hn Hk Hbefore Hfail. rewrite run_simulation_unroll.
  destruct (linrange_returns (t_0 system) (t_end system) (dt system) Hdt) as (ts & Hts).
  rewrite Hts. cbn [bind].
  pose proof (linrange_Ret _ _ _ _ Hts) as (Hg & Hlt & Hend & _).
  assert (Hlen : length ts = n).
  { apply (grid_index_unique (t_0 system) (dt system) (t_end system));
      try assumption.
    now rewrite <- Hg. }
  rewrite Hg, Hlen.
  rewrite (unroll_first_failure system e k n); try assumption.
  reflexivity.
Qed.

Lemma run_simulation_raises_at_first_undefined_time_witness :
  0 < dt system_short_signal /\
  t_end system_short_signal
    = grid_point (t_0 system_short_signal) (dt system_short_signal) 5 /\
  (4 < 5)%nat /\
  (forall j, (j < 4)%nat ->
             exists i, I system_short_signal
                         (grid_point (t_0 system_short_signal)
                                     (dt system_short_signal) j) = Ret i) /\
  I system_short_signal
    (grid_point (t_0 system_short_signal) (dt system_short_signal) 4)
    = Raise ValueError /\
  run_simulation system_short_signal update_func = Raise ValueError.
Proof.
  assert (H1 : 0 < dt system_short_signal) by reflexivity.
  assert (H2 : t_end system_short_signal
               = grid_point (t_0 system_short_signal) (dt system_short_signal) 5)
    by (apply Qc_is_canon; reflexivity).
  assert (Hk : (4 < 5)%nat) by lia.
  assert (H3 : forall j, (j < 4)%nat ->
             exists i, I system_short_signal
                         (grid_point (t_0 system_short_signal)
                                     (dt system_short_signal) j) = Ret i).
  { intros j Hj. destruct j as [|[|[|[|j]]]]; try lia; eexists; reflexivity. }
  assert (H4 : I system_short_signal
                 (grid_point (t_0 system_short_signal) (dt system_short_signal) 4)
               = Raise ValueError) by reflexivity.
  split; [exact H1|]. split; [exact H2|]. split; [exact Hk|].
  split; [exact H3|]. split; [exact H4|].
  exact (run_simulation_raises_at_first_undefined_time system_short_signal
           ValueError 5 4 H1 H2 Hk H3 H4).
Defined.

Lemma unroll_Raise (system : System)
    (update : State -> Qc -> System -> outcome State)
    (ts : list Qc) (s : State) (e : exn) :
  unroll system update ts s = Raise e ->
  exists s1 t, In t ts /\ update s1 t system = Raise e.
Proof.
  revert s. induction ts as [|t ts IH]; intro s; simpl; [discriminate|].
  destruct (update s t system) as [s'|e'|] eqn:E; cbn [bind].
  - destruct (unroll system update ts s') as [rest|e'|] eqn:E'; cbn [bind];
      try discriminate.
    intro H. injection H as <-.
    destruct (IH s' E') as (s1 & t1 & Hin & H1). exists s1, t1. split; [now right | exact H1].
  - intro H. injection H as <-. exists s, t. split; [now left | exact E].
  - discriminate.
Qed.

(** X13: the driver raises nothing of its own.  With a positive step and
    t_0 <= t_end, an exception that [run_simulation] raises was raised by
    the update function, called at a time from [t_0] up to, but not
    including, [t_end]; in particular reading [frame.row[t]] never fails
    with KeyError. *)
Theorem run_simulation_raises_only_what_update_raises
    (system : System) (update : State -> Qc -> System -> outcome State) (e : exn) :
  0 < dt system ->
  t_0 system <= t_end system ->
  run_simulation system update = Raise e ->
  exists s t,
    t_0 system <= t /\ t < t_end system /\ update s t system = Raise e.
Proof.
  intros _ _. rewrite run_simulation_unroll.
  destruct (linrange (t_0 system) (t_end system) (dt system)) as [ts|e'|] eqn:E;
    cbn [bind].
  - destruct (unroll system update ts (init system)) as [rest|e'|] eqn:E';
      cbn [bind]; try discriminate.
    intro H. injection H as <-.
    destruct (unroll_Raise system update ts (init system) e' E') as (s & t & Hin & Hs).
    destruct (linrange_window _ _ _ _ E t Hin) as [Ht0 Hte].
    exists s, t. repeat split; assumption.
  - exfalso. exact (linrange_loop_no_Raise _ _ _ _ _ E).
  - discriminate.
Qed.

Lemma run_simulation_raises_only_what_update_raises_witness :
  0 < dt system_short_signal /\
  t_0 system_short_signal <= t_end system_short_signal /\
  run_simulation system_short_signal update_func = Raise ValueError /\
  exists s t,
    t_0 system_short_signal <= t /\ t < t_end system_short_signal /\
    update_func s t system_short_signal = Raise ValueError.
Proof.
  assert (Hdt : 0 < dt system_short_signal) by reflexivity.
  assert (H0 : t_0 system_short_signal <= t_end system_short_signal)
    by (vm_compute; discriminate).
  assert (H : run_simulation system_short_signal update_func = Raise ValueError)
    by (vm_compute; reflexivity).
  split; [exact Hdt|]. split; [exact H0|]. split; [exact H|].
  exact (run_simulation_raises_only_what_update_raises system_short_signal
           update_func ValueError Hdt H0 H).
Defined.

(** ** run_simulation: the rows by position *)

Lemma nth_error_adjacent_split {A : Type} (l : list A) (i : nat) (a b : A) :
  nth_error l i = Some a ->
  nth_error l (S i) = Some b ->
  exists pre post, l = pre ++ a :: b :: post /\ length pre = i.
Proof.
  revert l. induction i as [|i IH]; intros l Ha Hb.
  - destruct l as [|x [|y l]]; try discriminate.
    injection Ha as <-. injection Hb as <-. now exists [], l.
  - destruct l as [|x l]; [discriminate|].
    destruct (IH l Ha Hb) as (pre & post & -> & Hlen).
    exists (x :: pre), post. split; [reflexivity | simpl; now rewrite Hlen].
Qed.

(** X14: row number i of a returned trajectory is recorded at the time
    t_0 + i*dt, and the row after it holds what the update function
    returned for the state and the time of row i. *)
Theorem trajectory_row_by_position
    (system : System) (update : State -> Qc -> System -> outcome State)
    (frame : TimeFrame) (i : nat) (t t' : Qc) (s s' : State) :
  run_simulation system update = Ret frame ->
  nth_error frame i = Some (t, s) ->
  nth_error frame (S i) = Some (t', s') ->
  t = grid_point (t_0 system) (dt system) i /\
  t' = t + dt system /\
  update s t system = Ret s'.
Proof.
  intros Hrun Hi HSi.
  destruct (nth_error_adjacent_split frame i _ _ Hi HSi) as (pre & post & Hsplit & _).
  destruct (run_simulation_adjacent system update frame pre post t t' s s' Hrun Hsplit)
    as (Ht' & Hs').
  split; [|split; assumption].
  apply run_simulation_Ret in Hrun.
  destruct Hrun as (n & rest & _ & _ & Htimes & _).
  apply (nth_error_grid _ _ _ (S n)). rewrite <- Htimes.
  unfold times. rewrite nth_error_map, Hi. reflexivity.
Qed.

Lemma trajectory_row_by_position_witness :
  let r1 := nth 1 trajectory0 (0, init system0) in
  let r2 := nth 2 trajectory0 (0, init system0) in
  run_simulation system0 update_func = Ret trajectory0 /\
  nth_error trajectory0 1 = Some (fst r1, snd r1) /\
  nth_error trajectory0 2 = Some (fst r2, snd r2) /\
  fst r1 = grid_point (t_0 system0) (dt system0) 1 /\
  fst r2 = fst r1 + dt system0 /\
  update_func (snd r1) (fst r1) system0 = Ret (snd r2).
Proof.
  intros r1 r2.
  assert (H1 : run_simulation system0 update_func = Ret trajectory0)
    by (vm_compute; reflexivity).
  assert (H2 : nth_error trajectory0 1 = Some (fst r1, snd r1))
    by (vm_compute; reflexivity).
  assert (H3 : nth_error trajectory0 2 = Some (fst r2, snd r2))
    by (vm_compute; reflexivity).
  split; [exact H1|]. split; [exact H2|]. split; [exact H3|].
  exact (trajectory_row_by_position system0 update_func trajectory0 1
           (fst r1) (fst r2) (snd r1) (snd r2) H1 H2 H3).
Defined.

(** X15: when [t_end] is k steps after [t_0] and the step is positive, a
    returned trajectory has exactly k + 1 rows, at the times t_0,
    t_0 + dt, ..., t_end, and no time occurs twice. *)
Theorem trajectory_has_one_row_per_grid_time
    (system : System) (update : State -> Qc -> System -> outcome State)
    (frame : TimeFrame) (k : nat) :
  0 < dt system ->
  t_end system = grid_point (t_0 system) (dt system) k ->
  run_simulation system update = Ret frame ->
  times frame = grid (t_0 system) (dt system) (S k) /\
  length frame = S k /\
  NoDup (times frame).
Proof.
  intros Hdt Hk Hrun. apply run_simulation_Ret in Hrun.
  destruct Hrun as (n & rest & _ & _ & Htimes & Hlt & Hend & _).
  assert (n = k) by (eapply grid_index_unique; eassumption). subst n.
  split; [exact Htimes|]. split.
  - rewrite <- (length_map fst). fold (times frame). rewrite Htimes. apply grid_length.
  - rewrite Htimes. clear - Hdt. generalize (t_0 system) as t.
    induction (S k) as [|m IH]; intro t; simpl; constructor.
    + intro Hin. apply grid_In in Hin. destruct Hin as (i & _ & Hi).
      pose proof (grid_point_ge (t + dt system) (dt system) i (Qclt_le_weak _ _ Hdt)) as Hge.
      rewrite <- Hi in Hge. qc_lra.
    + apply IH.
Qed.

Lemma trajectory_has_one_row_per_grid_time_witness :
  0 < dt system0 /\
  t_end system0 = grid_point (t_0 system0) (dt system0) 3 /\
  run_simulation system0 update_func = Ret trajectory0 /\
  times trajectory0 = grid (t_0 system0) (dt system0) 4 /\
  length trajectory0 = 4%nat /\
  NoDup (times trajectory0).
Proof.
  assert (H1 : 0 < dt system0) by reflexivity.
  assert (H2 : t_end system0 = grid_point (t_0 system0) (dt system0) 3)
    by (apply Qc_is_canon; reflexivity).
  assert (H3 : run_simulation system0 update_func = Ret trajectory0)
    by (vm_compute; reflexivity).
  split; [exact H1|]. split; [exact H2|]. split; [exact H3|].
  exact (trajectory_has_one_row_per_grid_time system0 update_func trajectory0 3
           H1 H2 H3).
Defined.

(** ** The rows of a TimeFrame *)

(** X16: writing a row and reading it back.  After [frame.row[t] = s] the
    row labelled [t] is [s], every other label reads as before, and the
    frame has gained a label only if [t] was not one of its labels. *)
Theorem row_set_then_row_get (frame : TimeFrame) (t t' : Qc) (s : State) :
  t' <> t ->
  row_get t (row_set t s frame) = Ret s /\
  row_get t' (row_set t s frame) = row_get t' frame /\
  (In t (times frame) -> times (row_set t s frame) = times frame) /\
  (~ In t (times frame) -> times (row_set t s frame) = times frame ++ [t]).
Proof.
  intro Hneq.
  assert (E' : Qc_eqb t t' = false) by (apply Qc_eqb_neq; congruence).
  induction frame as [|[l s0] frame IH]; simpl.
  - rewrite Qc_eqb_refl, E'.
    split; [reflexivity|]. split; [reflexivity|]. split; [intros [] | reflexivity].
  - destruct IH as (IH1 & IH2 & IH3 & IH4).
    destruct (Qc_eqb l t) eqn:E; simpl.
    + rewrite E. apply Qc_eqb_eq in E. subst l. rewrite E'.
      split; [reflexivity|]. split; [reflexivity|]. split; [reflexivity|].
      intro Hnin. exfalso. apply Hnin. now left.
    + rewrite E. apply Qc_eqb_neq in E.
      split; [exact IH1|]. split; [|split].
      * destruct (Qc_eqb l t'); [reflexivity | exact IH2].
      * intros [Heq | Hin]; [congruence | now rewrite IH3].
      * intro Hnin. rewrite IH4; [reflexivity|]. intro Hin. apply Hnin. now right.
Qed.

Lemma row_set_then_row_get_witness :
  qc 2 1 <> qc 8 1 /\
  row_get (qc 8 1) (row_set (qc 8 1) (init system0) trajectory0) = Ret (init system0) /\
  row_get (qc 2 1) (row_set (qc 8 1) (init system0) trajectory0)
    = row_get (qc 2 1) trajectory0 /\
  (In (qc 8 1) (times trajectory0) ->
   times (row_set (qc 8 1) (init system0) trajectory0) = times trajectory0) /\
  (~ In (qc 8 1) (times trajectory0) ->
   times (row_set (qc 8 1) (init system0) trajectory0) = times trajectory0 ++ [qc 8 1]).
Proof.
  assert (H : qc 2 1 <> qc 8 1).
  { intro H. apply Qc_eq_Qeq in H. vm_compute in H. discriminate. }
  split; [exact H|].
  exact (row_set_then_row_get trajectory0 (qc 8 1) (qc 2 1) (init system0) H).
Defined.

